(** * Music segmentation: change-point detection with an exact dynamic program

    Shallow embedding of the notebook [music-segmentation.ipynb]
    (classes [TempogramTransformer], [ChangePointDetector], the helpers
    [get_bkps] and [get_sum_of_cost], the segment enumeration with
    [pairwise]) and of the segmentation engine [KernelCPD] it calls.

    Signals are n x d matrices, stored row-major as [list (list Q)]
    (one row per frame). Exact rationals stand in for the floats. *)

From Stdlib Require Import List Arith ZArith Lia QArith Qfield Lqa Sorted Morphisms.
Import ListNotations.

Open Scope Q_scope.

(* ------------------------------------------------------------------ *)
(** ** Finite sums *)

(** [sum_to f k] is [f 0 + ... + f (k-1)]. *)
Fixpoint sum_to (f : nat -> Q) (k : nat) : Q :=
  match k with
  | O => 0
  | S k' => sum_to f k' + f k'
  end.

(** [sum_range f a b] is [f a + ... + f (b-1)] (empty when [b <= a]). *)
Definition sum_range (f : nat -> Q) (a b : nat) : Q :=
  sum_to (fun i => f (a + i)%nat) (b - a).

(* ------------------------------------------------------------------ *)
(** ** Signals, kernels and the segment cost *)

(** A frame is a feature vector; a signal is the matrix of its frames. *)
Definition vec := list Q.
Definition signal := list vec.

Definition n_samples (y : signal) : nat := length y.

(** [np.dot] on two vectors. *)
Definition dot (x z : vec) : Q :=
  fold_right Qplus 0 (map (fun p => fst p * snd p) (combine x z)).

(** A kernel (similarity function) between two frames. *)
Definition kernel := vec -> vec -> Q.

(** [kernel="linear"]. *)
Definition linear : kernel := dot.

(** Gram entry [K(y_i, y_j)]. *)
Definition gram (K : kernel) (y : signal) (i j : nat) : Q :=
  K (nth i y []) (nth j y []).

(** Modelled from the spec (4.1, CostModel): the cost of a segment
    [[a, b)] is
    [sum_{i=a}^{b-1} K(y_i,y_i) - 1/(b-a) sum_{i,j=a}^{b-1} K(y_i,y_j)]. *)
Definition cost_kernel (K : kernel) (y : signal) (a b : nat) : Q :=
  sum_range (fun i => gram K y i i) a b
  - / inject_Z (Z.of_nat (b - a))
    * sum_range (fun i => sum_range (fun j => gram K y i j) a b) a b.

(** Vector difference and squared norm. *)
Definition vsub (x z : vec) : vec := map (fun p => fst p - snd p) (combine x z).
Definition sqnorm (x : vec) : Q := dot x x.

(** Coordinate [l] of frame [t] (0 outside the matrix). *)
Definition coord (y : signal) (t l : nat) : Q := nth l (nth t y []) 0.

(** Mean vector of the frames of [[a, b)], of dimension [d]. *)
Definition seg_mean (y : signal) (d a b : nat) : vec :=
  map (fun l => sum_range (fun t => coord y t l) a b / inject_Z (Z.of_nat (b - a)))
      (seq 0 d).

(** The cost function of the notebook (cell "Detection algorithm"):
    [c(y_{a..b}) = sum_{t=a}^{b-1} || y_t - mean(y_{a..b}) ||^2]. *)
Definition cost_mean (y : signal) (d a b : nat) : Q :=
  sum_range (fun t => sqnorm (vsub (nth t y []) (seg_mean y d a b))) a b.

(* ------------------------------------------------------------------ *)
(** ** Errors *)

Inductive error :=
| EmptySequence
| DimensionMismatch
| InvalidSegment
| InfeasibleKMax
| OutOfRange
| NotFitted.

Inductive result (A : Type) :=
| Ok (a : A)
| Err (e : error).
Arguments Ok {A} a.
Arguments Err {A} e.

Definition bind {A B} (r : result A) (f : A -> result B) : result B :=
  match r with Ok a => f a | Err e => Err e end.

(* ------------------------------------------------------------------ *)
(** ** The segmentation engine (dynamic program over all k at once) *)

Section DP.

(** The segment cost [cost(a, b)] and the minimal segment length. *)
Variable cost : nat -> nat -> Q.
Variable min_size : nat.

(** Segments are non-empty, so the effective minimum length is at least 1. *)
Definition eff_min : nat := Nat.max 1 min_size.

(** [[a, b)] is a segment long enough. *)
Definition seg_ok (a b : nat) : bool := (a + eff_min <=? b)%nat.

(** A cell [D[t][k]]: [Some (v, s)] is the minimal cost [v] of splitting
    [[0, t)] into [k+1] segments, and [s] the backpointer (start of the last
    segment); [None] when no such split exists. *)
Definition cell := option (Q * nat).
Definition row := list cell.

(** Modelled from the spec (4.3, base case): [D[t][0] = cost(0, t)]. *)
Definition row0 (n : nat) : row :=
  map (fun t => if seg_ok 0 t then Some (cost 0%nat t, 0%nat) else None)
      (seq 0 (S n)).

(** Candidate value of predecessor [s] for cell [t]:
    [D[s][k-1] + cost(s, t)], when [s] is a valid predecessor. *)
Definition cand (prev : row) (t s : nat) : option Q :=
  match nth s prev None with
  | Some (v, _) => if seg_ok s t then Some (v + cost s t) else None
  | None => None
  end.

(** One step of the minimum search: a later predecessor replaces the
    current best only if it is strictly better (ties keep the smallest
    index). *)
Definition relax (prev : row) (t : nat) (acc : cell) (s : nat) : cell :=
  match cand prev t s with
  | None => acc
  | Some v =>
      match acc with
      | None => Some (v, s)
      | Some (w, _) => if Qle_bool w v then acc else Some (v, s)
      end
  end.

(** Modelled from the spec (4.3, recurrence):
    [D[t][k] = min_s D[s][k-1] + cost(s, t)], [s] scanned in increasing order. *)
Definition best (prev : row) (t : nat) : cell :=
  fold_left (relax prev t) (seq 0 t) None.

Definition next_row (n : nat) (prev : row) : row :=
  map (best prev) (seq 0 (S n)).

(** Row [k] of the cost table, [t] ranging over [0..n]. *)
Fixpoint dp_row (n k : nat) : row :=
  match k with
  | O => row0 n
  | S k' => next_row n (dp_row n k')
  end.

(** The whole cost table, rows [0..kmax]. *)
Definition dp_table (n kmax : nat) : list row :=
  map (dp_row n) (seq 0 (S kmax)).

End DP.

(** Modelled from the spec (4.3, reconstruction): walk the backpointers
    [back[t][k] -> back[s][k-1] -> ...]; the result lists the [k] interior
    breakpoints in increasing order. *)
Fixpoint walk (tbl : list row) (k t : nat) : list nat :=
  match k with
  | O => []
  | S k' =>
      match nth t (nth k tbl []) None with
      | Some (_, s) => walk tbl k' s ++ [s]
      | None => []
      end
  end.

(** A fitted engine: the sequence length, the bound [k_max], the minimal
    segment length, the cost model and the cost table. *)
Record fitted := {
  fe_n : nat;
  fe_kmax : nat;
  fe_min_size : nat;
  fe_cost : nat -> nat -> Q;
  fe_table : list row
}.

(** Modelled from the spec (4.2, 4.3, 7): [fit(sequence, kernel, k_max,
    min_segment_length)], with its errors. *)
Definition fit (K : kernel) (y : signal) (kmax min_size : nat) : result fitted :=
  match y with
  | [] => Err EmptySequence
  | r :: _ =>
      if negb (forallb (fun r' => length r' =? length r)%nat y)
      then Err DimensionMismatch
      else if (n_samples y <? S kmax * eff_min min_size)%nat
      then Err InfeasibleKMax
      else Ok {| fe_n := n_samples y;
                 fe_kmax := kmax;
                 fe_min_size := min_size;
                 fe_cost := cost_kernel K y;
                 fe_table := dp_table (cost_kernel K y) min_size (n_samples y) kmax |}
  end.

(** Modelled from the spec (4.3, [total_cost(k) = D[n][k]]). The last
    branch is unreachable after a successful [fit]. *)
Definition total_cost (fe : fitted) (k : nat) : result Q :=
  if (fe_kmax fe <? k)%nat then Err OutOfRange
  else match nth (fe_n fe) (nth k (fe_table fe) []) None with
       | Some (v, _) => Ok v
       | None => Err OutOfRange
       end.

(** Modelled from the spec (4.3, [predict(k)]) together with the output
    convention the notebook relies on ([bkps_times[:-1]] and
    [pairwise([0] + bkps)]): the list of breakpoints ends with [n]. *)
Definition predict (fe : fitted) (k : nat) : result (list nat) :=
  if (fe_kmax fe <? k)%nat then Err OutOfRange
  else match nth (fe_n fe) (nth k (fe_table fe) []) None with
       | Some _ => Ok (walk (fe_table fe) k (fe_n fe) ++ [fe_n fe])
       | None => Err OutOfRange
       end.

(** The engine as a state: [None] before [fit]. Queries return their
    answer and the state after the call. *)
Definition engine := option fitted.

Definition engine_predict (st : engine) (k : nat) : result (list nat) * engine :=
  match st with
  | None => (Err NotFitted, st)
  | Some fe => (predict fe k, st)
  end.

Definition engine_total_cost (st : engine) (k : nat) : result Q * engine :=
  match st with
  | None => (Err NotFitted, st)
  | Some fe => (total_cost fe k, st)
  end.

(* ------------------------------------------------------------------ *)
(** ** The notebook *)

(** [rpt.utils.pairwise]: [s -> (s0,s1), (s1,s2), ...]. *)
Fixpoint pairwise (l : list nat) : list (nat * nat) :=
  match l with
  | a :: ((b :: _) as tl) => (a, b) :: pairwise tl
  | _ => []
  end.

(** Modelled from the spec (4.4, sum of the segment costs of a partition):
    [algo.cost.sum_of_costs(bkps)], the costs of the segments
    [pairwise([0] + bkps)]. *)
Definition sum_of_costs (cost : nat -> nat -> Q) (bkps : list nat) : Q :=
  fold_right Qplus 0 (map (fun p => cost (fst p) (snd p)) (pairwise (0%nat :: bkps))).

(** [get_bkps(signal, n_bkps)]:
    [rpt.KernelCPD(kernel="linear").fit(signal).predict(n_bkps=n_bkps)];
    the engine is fitted for the requested count, with the default
    minimal segment length 1. *)
Definition get_bkps (sig : signal) (n_bkps : nat) : result (list nat) :=
  bind (fit linear sig n_bkps 1) (fun algo => predict algo n_bkps).

(** [get_sum_of_cost(algo, n_bkps)]. *)
Definition get_sum_of_cost (algo : fitted) (n_bkps : nat) : result Q :=
  bind (predict algo n_bkps) (fun bkps => Ok (sum_of_costs (fe_cost algo) bkps)).

(** An audio signal (samples) before the tempogram transform. *)
Definition audio := list Q.

Record TempogramTransformer := { hop_length_tempo : nat }.

Record ChangePointDetector := { n_bkps : nat }.

Section Pipeline.

(** [get_tempogram(signal, hop_length_tempo)], computed by librosa. *)
Variable get_tempogram : audio -> nat -> signal.

(** [TempogramTransformer.fit]: "Nothing happens in the .fit()". *)
Definition tt_fit {X Y : Type} (self : TempogramTransformer) (_ : X) (_ : Y)
  : TempogramTransformer := self.

(** [TempogramTransformer.transform]: a loop appending to [out]. *)
Definition tt_transform (self : TempogramTransformer) (X : list audio) : list signal :=
  fold_left (fun out sig => out ++ [get_tempogram sig (hop_length_tempo self)]) X [].

End Pipeline.

(** [ChangePointDetector.fit]: "Nothing happens in the .fit()". *)
Definition cpd_fit {X Y : Type} (self : ChangePointDetector) (_ : X) (_ : Y)
  : ChangePointDetector := self.

(** [ChangePointDetector.predict]: a loop appending [get_bkps] of each
    signal to [out]; an exception raised by [get_bkps] propagates. *)
Definition cpd_predict (self : ChangePointDetector) (X : list signal)
  : result (list (list nat)) :=
  fold_left (fun acc sig =>
               bind acc (fun out =>
                 bind (get_bkps sig (n_bkps self)) (fun bkps => Ok (out ++ [bkps]))))
            X (Ok []).

(** Per-coordinate centred sum of squares of [[a, b)], used to compare
    the two forms of the linear cost:
    [sum_t y_{t,l}^2 - (sum_t y_{t,l})^2 / (b - a)]. *)
Definition coord_ss (y : signal) (a b l : nat) : Q :=
  sum_range (fun t => coord y t l * coord y t l) a b
  - sum_range (fun t => coord y t l) a b * sum_range (fun t => coord y t l) a b
    / inject_Z (Z.of_nat (b - a)).

(** [array_of_n_bkps = np.arange(1, n_bkps_max + 1)]. *)
Definition array_of_n_bkps (n_bkps_max : nat) : list nat := seq 1 n_bkps_max.

(** The elbow curve of the notebook:
    [[get_sum_of_cost(algo=algo, n_bkps=n_bkps) for n_bkps in array_of_n_bkps]]. *)
Definition sum_of_cost_curve (algo : fitted) (n_bkps_max : nat) : list (result Q) :=
  map (fun k => get_sum_of_cost algo k) (array_of_n_bkps n_bkps_max).

(** [pipeline.predict(X)] for [Pipeline(steps)] with the steps
    [TempogramTransformer] then [ChangePointDetector]: the transformer's
    [transform], then the detector's [predict]. *)
Definition pipeline_predict (get_tempogram : audio -> nat -> signal)
    (tt : TempogramTransformer) (det : ChangePointDetector) (X : list audio)
  : result (list (list nat)) :=
  cpd_predict det (tt_transform get_tempogram tt X).

(** The times at which [for b in bkps_times[:-1]: ax.axvline(b, ...)] draws
    a line, [bkps_times] being [frames_to_time] applied to each breakpoint. *)
Definition vline_times (frames_to_time : nat -> Q) (bkps : list nat) : list Q :=
  removelast (map frames_to_time bkps).

(** Python's [x[start:end]] for non-negative [start] and [end]. *)
Definition slice {A} (x : list A) (start stop : nat) : list A :=
  firstn (stop - start) (skipn start x).

(** The segments played by the listening loop:
    [signal[start:end] for (start, end) in pairwise([0] + bkps_time_indexes)]. *)
Definition listen_segments (sig : audio) (idx : list nat) : list audio :=
  map (fun p => slice sig (fst p) (snd p)) (pairwise (0%nat :: idx)).

(** A signal of four equal frames. *)
Definition flat_signal : signal := [[1]; [1]; [1]; [1]].

(** The signal of the spec's scenario: two constant halves. *)
Definition steps_signal : signal := [[0]; [0]; [0]; [10]; [10]; [10]].

(* ------------------------------------------------------------------ *)
(** ** Examples *)

Example steps_predict_1 :
  bind (fit linear steps_signal 3 1) (fun fe => predict fe 1) = Ok [3%nat; 6%nat].
Proof. vm_compute. reflexivity. Qed.

Example steps_cost_1 :
  match bind (fit linear steps_signal 3 1) (fun fe => total_cost fe 1) with
  | Ok v => v == 0
  | Err _ => False
  end.
Proof. vm_compute. reflexivity. Qed.

Example infeasible_kmax :
  fit linear [[0]; [1]; [2]; [3]] 3 2 = Err InfeasibleKMax.
Proof. reflexivity. Qed.

(* ------------------------------------------------------------------ *)
(** ** Facts about the dynamic program *)

Lemma nth_map_seq {B} (f : nat -> B) (d : B) (len t : nat) :
  nth t (map f (seq 0 len)) d = if (t <? len)%nat then f t else d.
Proof.
  destruct (Nat.ltb_spec t len) as [Hlt | Hge].
  - rewrite nth_indep with (d' := f 0%nat) by (rewrite length_map, length_seq; lia).
    rewrite map_nth, seq_nth by lia. reflexivity.
  - apply nth_overflow. rewrite length_map, length_seq. lia.
Qed.

Section DPFacts.

#[local] Set Warnings "-notation-for-abbreviation".

Variable cost : nat -> nat -> Q.
Variable min_size : nat.
Variable n : nat.

Notation em := (eff_min min_size).
Notation D k t := (nth t (dp_row cost min_size n k) None).

Lemma eff_min_pos : (1 <= em)%nat.
Proof. unfold eff_min. lia. Qed.

Lemma seg_ok_iff a b : seg_ok min_size a b = true <-> (a + em <= b)%nat.
Proof. unfold seg_ok. apply Nat.leb_le. Qed.

(** Invariant of the minimum search after scanning predecessors [0..j). *)
Lemma relax_fold_inv prev t j :
  (fold_left (relax cost min_size prev t) (seq 0 j) None = None ->
     forall s, (s < j)%nat -> cand cost min_size prev t s = None) /\
  (forall v b, fold_left (relax cost min_size prev t) (seq 0 j) None = Some (v, b) ->
     (b < j)%nat /\ cand cost min_size prev t b = Some v /\
     (forall s v', (s < j)%nat -> cand cost min_size prev t s = Some v' -> v <= v') /\
     (forall s v', (s < b)%nat -> cand cost min_size prev t s = Some v' -> v < v')).
Proof.
  induction j as [| j [IHn IHs]].
  - split; [intros _ s Hs; lia | intros v b H; discriminate].
  - rewrite seq_S, fold_left_app. simpl.
    set (acc := fold_left (relax cost min_size prev t) (seq 0 j) None) in *.
    unfold relax.
    destruct (cand cost min_size prev t j) as [cj |] eqn:Hcj.
    + destruct acc as [[w bw] |] eqn:Hacc.
      * destruct (IHs w bw eq_refl) as (Hb & Hcb & Hmin & Hstrict).
        destruct (Qle_bool w cj) eqn:Hle.
        -- apply Qle_bool_iff in Hle. split; [discriminate |].
           intros v b [= <- <-]. repeat split; auto; try lia.
           intros s v' Hs Hc. destruct (Nat.eq_dec s j) as [-> | Hne].
           ++ congruence.
           ++ apply (Hmin s); auto; lia.
        -- assert (Hlt : cj < w).
           { apply Qnot_le_lt. intro H. apply Qle_bool_iff in H. congruence. }
           split; [discriminate |].
           intros v b [= <- <-]. repeat split; auto; try lia.
           ++ intros s v' Hs Hc. destruct (Nat.eq_dec s j) as [-> | Hne].
              ** rewrite Hcj in Hc. injection Hc as <-. apply Qle_refl.
              ** apply Qle_trans with w; [apply Qlt_le_weak; assumption |].
                 apply (Hmin s); auto; lia.
           ++ intros s v' Hs Hc. apply Qlt_le_trans with w; [assumption |].
              apply (Hmin s); auto; lia.
      * split; [discriminate |].
        intros v b [= <- <-]. repeat split; auto; try lia.
        -- intros s v' Hs Hc. destruct (Nat.eq_dec s j) as [-> | Hne].
           ++ rewrite Hcj in Hc. injection Hc as <-. apply Qle_refl.
           ++ rewrite (IHn eq_refl s) in Hc by lia. discriminate.
        -- intros s v' Hs Hc. rewrite (IHn eq_refl s) in Hc by lia. discriminate.
    + split.
      * intros Hn s Hs. destruct (Nat.eq_dec s j) as [-> | Hne]; auto.
        apply IHn; auto; lia.
      * intros v b Hsome. destruct (IHs v b Hsome) as (Hb & Hcb & Hmin & Hstrict).
        repeat split; auto; try lia.
        intros s v' Hs Hc. destruct (Nat.eq_dec s j) as [-> | Hne]; [congruence |].
        apply (Hmin s); auto; lia.
Qed.

Lemma best_none prev t :
  best cost min_size prev t = None -> forall s, (s < t)%nat -> cand cost min_size prev t s = None.
Proof. apply (relax_fold_inv prev t t). Qed.

Lemma best_some prev t v b :
  best cost min_size prev t = Some (v, b) ->
  (b < t)%nat /\ cand cost min_size prev t b = Some v /\
  (forall s v', (s < t)%nat -> cand cost min_size prev t s = Some v' -> v <= v') /\
  (forall s v', (s < b)%nat -> cand cost min_size prev t s = Some v' -> v < v').
Proof. apply (relax_fold_inv prev t t). Qed.

Lemma D_zero t :
  D 0 t = if (t <=? n)%nat then
            (if seg_ok min_size 0 t then Some (cost 0%nat t, 0%nat) else None)
          else None.
Proof.
  change (dp_row cost min_size n 0) with (row0 cost min_size n).
  unfold row0. rewrite nth_map_seq.
  destruct (Nat.ltb_spec t (S n)), (Nat.leb_spec t n); auto; lia.
Qed.

Lemma D_succ k t :
  D (S k) t = if (t <=? n)%nat then best cost min_size (dp_row cost min_size n k) t else None.
Proof.
  change (dp_row cost min_size n (S k))
    with (next_row cost min_size n (dp_row cost min_size n k)).
  unfold next_row. rewrite nth_map_seq.
  destruct (Nat.ltb_spec t (S n)), (Nat.leb_spec t n); auto; lia.
Qed.

(** A cell is defined exactly when [[0, t)] can hold [k+1] segments. *)
Lemma D_defined k t :
  (exists c, D k t = Some c) <-> (t <= n /\ S k * em <= t)%nat.
Proof.
  pose proof eff_min_pos as Hem.
  revert t. induction k as [| k IH]; intro t.
  - rewrite D_zero. destruct (Nat.leb_spec t n).
    + destruct (seg_ok min_size 0 t) eqn:Hs.
      * apply seg_ok_iff in Hs. split; [intros _; lia | eauto].
      * split; [intros [c Hc]; discriminate |].
        intros [_ Ht]. assert (seg_ok min_size 0 t = true) by (apply seg_ok_iff; lia).
        congruence.
    + split; [intros [c Hc]; discriminate | lia].
  - rewrite D_succ. destruct (Nat.leb_spec t n) as [Htn | Htn].
    + split.
      * intros [[v b] Hb]. destruct (best_some _ _ _ _ Hb) as (Hbt & Hc & _).
        unfold cand in Hc.
        destruct (nth b (dp_row cost min_size n k) None) as [[w bb] |] eqn:Hw;
          [| discriminate].
        destruct (seg_ok min_size b t) eqn:Hs; [| discriminate].
        apply seg_ok_iff in Hs.
        destruct (proj1 (IH b) (ex_intro _ _ Hw)) as [_ Hkb].
        simpl in *. lia.
      * intros [_ Ht].
        destruct (best cost min_size (dp_row cost min_size n k) t) as [c |] eqn:Hbest; [eauto |].
        exfalso.
        assert (Hs : (t - em < t)%nat) by lia.
        pose proof (best_none _ _ Hbest (t - em) Hs) as Hc.
        destruct (proj2 (IH (t - em)%nat)) as [[w bb] Hw]; [simpl in *; lia |].
        unfold cand in Hc. rewrite Hw in Hc.
        assert (seg_ok min_size (t - em) t = true) by (apply seg_ok_iff; lia).
        rewrite H in Hc. discriminate.
    + split; [intros [c Hc]; discriminate | lia].
Qed.

End DPFacts.

(* ------------------------------------------------------------------ *)
(** ** Segments of a breakpoint list *)

Lemma pairwise_snoc2 (l : list nat) (x t : nat) :
  pairwise (l ++ [x; t]) = pairwise (l ++ [x]) ++ [(x, t)].
Proof.
  induction l as [| a l IH]; [reflexivity |].
  destruct l as [| b l]; [reflexivity |].
  change ((a :: b :: l) ++ [x; t]) with (a :: (b :: l) ++ [x; t]).
  change ((a :: b :: l) ++ [x]) with (a :: (b :: l) ++ [x]).
  simpl (pairwise (a :: (b :: l) ++ _)). simpl in IH. rewrite IH. reflexivity.
Qed.

Lemma length_pairwise (a : nat) (l : list nat) :
  length (pairwise (a :: l)) = length l.
Proof.
  revert a. induction l as [| b l IH]; intro a; [reflexivity |].
  simpl. f_equal. apply IH.
Qed.

Lemma gaps_sorted (g a : nat) (l : list nat) :
  (1 <= g)%nat ->
  Forall (fun p => (fst p + g <= snd p)%nat) (pairwise (a :: l)) ->
  Sorted lt (a :: l).
Proof.
  intro Hg. revert a. induction l as [| b l IH]; intros a H.
  - repeat constructor.
  - simpl in H. inversion H as [| ? ? Hab Hrest]; subst. simpl in Hab.
    constructor; [apply IH; exact Hrest |]. constructor. lia.
Qed.

Lemma gaps_bounds (g a t : nat) (l : list nat) :
  (1 <= g)%nat ->
  Forall (fun p => (fst p + g <= snd p)%nat) (pairwise (a :: l ++ [t])) ->
  (a < t)%nat /\ Forall (fun x => a < x /\ x < t)%nat l.
Proof.
  intro Hg. revert a. induction l as [| b l IH]; intros a H.
  - simpl in H. inversion H; subst. simpl in *. split; [lia | constructor].
  - simpl in H. inversion H as [| ? ? Hab Hrest]; subst. simpl in Hab.
    destruct (IH b Hrest) as [Hbt Hl]. split; [lia |].
    constructor; [lia |]. eapply Forall_impl; [| exact Hl]. simpl. intros x Hx. lia.
Qed.

Lemma qsum_app (l1 l2 : list Q) :
  fold_right Qplus 0 (l1 ++ l2) == fold_right Qplus 0 l1 + fold_right Qplus 0 l2.
Proof.
  induction l1 as [| x l1 IH]; simpl.
  - ring.
  - rewrite IH. ring.
Qed.

(* ------------------------------------------------------------------ *)
(** ** The backpointer walk *)

Section WalkFacts.

Variable cost : nat -> nat -> Q.
Variable min_size : nat.
Variable n : nat.
Variable tbl : list row.

(** The table holds the rows of the dynamic program up to [kmax]. *)
Variable kmax : nat.
Hypothesis tbl_rows : forall j, (j <= kmax)%nat -> nth j tbl [] = dp_row cost min_size n j.

Lemma cand_some prev t s v :
  cand cost min_size prev t s = Some v ->
  exists w b, nth s prev None = Some (w, b) /\ (s + eff_min min_size <= t)%nat /\
              v = w + cost s t.
Proof.
  unfold cand. destruct (nth s prev None) as [[w b] |]; [| discriminate].
  destruct (seg_ok min_size s t) eqn:Hs; [| discriminate].
  apply seg_ok_iff in Hs. intros [= <-]. eauto.
Qed.

(** Walking back from a defined cell [D[t][k]] gives [k] breakpoints
    whose segments, closed by [t], are all long enough. *)
Lemma walk_segments k t c :
  (k <= kmax)%nat ->
  nth t (dp_row cost min_size n k) None = Some c ->
  length (walk tbl k t) = k /\
  Forall (fun p => (fst p + eff_min min_size <= snd p)%nat)
         (pairwise (0%nat :: walk tbl k t ++ [t])).
Proof.
  revert t c. induction k as [| k IH]; intros t c Hk Hc.
  - split; [reflexivity |]. rewrite D_zero in Hc.
    destruct (t <=? n)%nat; [| discriminate].
    destruct (seg_ok min_size 0 t) eqn:Hs; [| discriminate].
    apply seg_ok_iff in Hs. simpl. constructor; [simpl; lia | constructor].
  - simpl walk. rewrite tbl_rows by lia. rewrite Hc. destruct c as [v s].
    rewrite D_succ in Hc. destruct (t <=? n)%nat; [| discriminate].
    destruct (best_some _ _ _ _ _ _ Hc) as (_ & Hcs & _).
    destruct (cand_some _ _ _ _ Hcs) as (w & b & Hw & Hst & _).
    destruct (IH s (w, b) ltac:(lia) Hw) as [Hlen Hgaps].
    split; [rewrite length_app, Hlen; simpl; lia |].
    rewrite <- app_assoc. simpl (_ ++ [t]).
    change (0%nat :: walk tbl k s ++ [s; t]) with ((0%nat :: walk tbl k s) ++ [s; t]).
    rewrite pairwise_snoc2. apply Forall_app. split; [exact Hgaps |].
    constructor; [simpl; lia | constructor].
Qed.

(** The value of a defined cell is the sum of the costs of the segments
    its backpointers describe. *)
Lemma walk_value k t v b :
  (k <= kmax)%nat ->
  nth t (dp_row cost min_size n k) None = Some (v, b) ->
  sum_of_costs cost (walk tbl k t ++ [t]) == v.
Proof.
  revert t v b. induction k as [| k IH]; intros t v b Hk Hc.
  - rewrite D_zero in Hc. destruct (t <=? n)%nat; [| discriminate].
    destruct (seg_ok min_size 0 t); [| discriminate]. injection Hc as <- <-.
    unfold sum_of_costs. simpl. ring.
  - simpl walk. rewrite tbl_rows by lia. rewrite Hc.
    rewrite D_succ in Hc. destruct (t <=? n)%nat; [| discriminate].
    destruct (best_some _ _ _ _ _ _ Hc) as (_ & Hcs & _).
    destruct (cand_some _ _ _ _ Hcs) as (w & b' & Hw & Hst & ->).
    pose proof (IH b w b' ltac:(lia) Hw) as Hv.
    unfold sum_of_costs in *. rewrite <- app_assoc. simpl (_ ++ [t]).
    change (0%nat :: walk tbl k b ++ [b; t]) with ((0%nat :: walk tbl k b) ++ [b; t]).
    rewrite pairwise_snoc2, map_app, qsum_app. rewrite Hv. simpl. ring.
Qed.

End WalkFacts.

Lemma walk_ext (t1 t2 : list row) k t :
  (forall j, (j <= k)%nat -> nth j t1 [] = nth j t2 []) ->
  walk t1 k t = walk t2 k t.
Proof.
  revert t. induction k as [| k IH]; intros t H; [reflexivity |].
  simpl. rewrite (H (S k)) by lia.
  destruct (nth t (nth (S k) t2 []) None) as [[v s] |]; [| reflexivity].
  rewrite IH by (intros; apply H; lia). reflexivity.
Qed.

Lemma dp_table_nth cost min_size n kmax j :
  (j <= kmax)%nat -> nth j (dp_table cost min_size n kmax) [] = dp_row cost min_size n j.
Proof.
  intro Hj. unfold dp_table. rewrite nth_map_seq.
  destruct (Nat.ltb_spec j (S kmax)); [reflexivity | lia].
Qed.

(* ------------------------------------------------------------------ *)
(** ** One more segment never costs more (minimal length 1) *)

Section Monotone.

Variable cost : nat -> nat -> Q.
Variable min_size : nat.
Variable n : nat.

(** Splitting a segment never increases its cost. *)
Hypothesis cost_split :
  forall a s b, (a <= s <= b)%nat -> cost a s + cost s b <= cost a b.

Hypothesis min_size_le_1 : (min_size <= 1)%nat.

Lemma eff_min_1 : eff_min min_size = 1%nat.
Proof. unfold eff_min. lia. Qed.

Lemma best_le (prev : row) t s v v' b' :
  (s < t)%nat ->
  cand cost min_size prev t s = Some v ->
  best cost min_size prev t = Some (v', b') -> v' <= v.
Proof.
  intros Hs Hc Hb. destruct (best_some _ _ _ _ _ _ Hb) as (_ & _ & Hmin & _).
  eapply Hmin; eauto.
Qed.

Lemma cand_of (prev : row) t s w b :
  nth s prev None = Some (w, b) -> (s + 1 <= t)%nat ->
  cand cost min_size prev t s = Some (w + cost s t).
Proof.
  intros Hw Hst. unfold cand. rewrite Hw.
  assert (seg_ok min_size s t = true) as -> by (apply seg_ok_iff; rewrite eff_min_1; lia).
  reflexivity.
Qed.

Lemma D_exists k t :
  (t <= n)%nat -> (S k <= t)%nat -> exists v b, nth t (dp_row cost min_size n k) None = Some (v, b).
Proof.
  intros Htn Hkt.
  destruct (proj2 (D_defined cost min_size n k t)) as [[v b] Hc];
    [rewrite eff_min_1; lia | eauto].
Qed.

Lemma D_mono k t v b :
  nth t (dp_row cost min_size n k) None = Some (v, b) ->
  (k + 2 <= t)%nat ->
  exists v' b', nth t (dp_row cost min_size n (S k)) None = Some (v', b') /\ v' <= v.
Proof.
  revert t v b. induction k as [| k IH]; intros t v b Hc Ht.
  - rewrite D_zero in Hc. destruct (Nat.leb_spec t n) as [Htn |]; [| discriminate].
    destruct (seg_ok min_size 0 t); [| discriminate]. injection Hc as <- <-.
    destruct (D_exists 1 t Htn ltac:(lia)) as (v' & b' & Hc').
    exists v', b'. split; [exact Hc' |].
    rewrite D_succ in Hc'. destruct (Nat.leb_spec t n); [| lia].
    destruct (D_exists 0 (t - 1) ltac:(lia) ltac:(lia)) as (w & bw & Hw).
    pose proof Hw as Hw0. rewrite D_zero in Hw0.
    destruct (t - 1 <=? n)%nat; [| discriminate].
    destruct (seg_ok min_size 0 (t - 1)); [| discriminate]. injection Hw0 as <- <-.
    eapply Qle_trans; [eapply best_le; [| eapply cand_of; [exact Hw |] | exact Hc']; lia |].
    apply cost_split. lia.
  - pose proof Hc as Hc0. rewrite D_succ in Hc0.
    destruct (Nat.leb_spec t n) as [Htn |]; [| discriminate].
    destruct (best_some _ _ _ _ _ _ Hc0) as (Hbt & Hcb & _).
    destruct (cand_some _ _ _ _ _ _ Hcb) as (w & bw & Hw & Hbt' & ->).
    rewrite eff_min_1 in Hbt'.
    assert (Hkb : (S k <= b)%nat).
    { destruct (proj1 (D_defined cost min_size n k b) (ex_intro _ _ Hw)) as [_ H].
      rewrite eff_min_1 in H. lia. }
    destruct (D_exists (S (S k)) t Htn ltac:(lia)) as (v' & b' & Hc').
    exists v', b'. split; [exact Hc' |].
    rewrite D_succ in Hc'. destruct (Nat.leb_spec t n); [| lia].
    destruct (Nat.eq_dec b (S k)) as [-> | Hne].
    + (* the last segment of the optimum is split at [t - 1] *)
      destruct (D_exists (S k) (t - 1) ltac:(lia) ltac:(lia)) as (u & bu & Hu).
      assert (Hule : u <= w + cost (S k) (t - 1)).
      { pose proof Hu as Hu0. rewrite D_succ in Hu0.
        destruct (t - 1 <=? n)%nat; [| discriminate].
        eapply best_le; [| eapply cand_of; [exact Hw |] | exact Hu0]; lia. }
      eapply Qle_trans; [eapply best_le; [| eapply cand_of; [exact Hu |] | exact Hc']; lia |].
      apply Qle_trans with (w + cost (S k) (t - 1) + cost (t - 1) t).
      * apply Qplus_le_l. exact Hule.
      * rewrite <- Qplus_assoc. apply Qplus_le_r. apply cost_split. lia.
    + (* the optimum's prefix already has room for one more breakpoint *)
      destruct (IH b w bw Hw ltac:(lia)) as (w' & bw' & Hw' & Hle).
      eapply Qle_trans; [eapply best_le; [| eapply cand_of; [exact Hw' |] | exact Hc']; lia |].
      apply Qplus_le_l. exact Hle.
Qed.

End Monotone.

(* ------------------------------------------------------------------ *)
(** ** Finite sums over Q *)

#[export] Instance sum_to_proper :
  Proper (pointwise_relation nat Qeq ==> eq ==> Qeq) sum_to.
Proof.
  intros f g Hfg k k' <-. induction k as [| k IH]; simpl; [reflexivity |].
  rewrite IH, (Hfg k). reflexivity.
Qed.

#[export] Instance sum_range_proper :
  Proper (pointwise_relation nat Qeq ==> eq ==> eq ==> Qeq) sum_range.
Proof.
  intros f g Hfg a a' <- b b' <-. unfold sum_range.
  apply sum_to_proper; [intro i; apply Hfg | reflexivity].
Qed.

Lemma sum_to_ext (f g : nat -> Q) k :
  (forall i, (i < k)%nat -> f i == g i) -> sum_to f k == sum_to g k.
Proof.
  induction k as [| k IH]; intro H; simpl; [reflexivity |].
  rewrite IH by (intros; apply H; lia). rewrite (H k) by lia. reflexivity.
Qed.

Lemma sum_to_le (f g : nat -> Q) k :
  (forall i, (i < k)%nat -> f i <= g i) -> sum_to f k <= sum_to g k.
Proof.
  induction k as [| k IH]; intro H; simpl; [apply Qle_refl |].
  apply Qplus_le_compat; [apply IH; intros; apply H; lia | apply H; lia].
Qed.

Lemma sum_to_plus (f g : nat -> Q) k :
  sum_to (fun i => f i + g i) k == sum_to f k + sum_to g k.
Proof. induction k as [| k IH]; simpl; [ring | rewrite IH; ring]. Qed.

Lemma sum_to_minus (f g : nat -> Q) k :
  sum_to (fun i => f i - g i) k == sum_to f k - sum_to g k.
Proof. induction k as [| k IH]; simpl; [ring | rewrite IH; ring]. Qed.

Lemma sum_to_scal_l (c : Q) (f : nat -> Q) k :
  sum_to (fun i => c * f i) k == c * sum_to f k.
Proof. induction k as [| k IH]; simpl; [ring | rewrite IH; ring]. Qed.

Lemma sum_to_scal_r (c : Q) (f : nat -> Q) k :
  sum_to (fun i => f i * c) k == sum_to f k * c.
Proof. induction k as [| k IH]; simpl; [ring | rewrite IH; ring]. Qed.

Lemma sum_to_const (c : Q) k :
  sum_to (fun _ => c) k == inject_Z (Z.of_nat k) * c.
Proof.
  induction k as [| k IH]; [simpl; ring |].
  change (sum_to (fun _ => c) (S k)) with (sum_to (fun _ => c) k + c).
  rewrite IH, <- Nat.add_1_r, Nat2Z.inj_add, inject_Z_plus. simpl. ring.
Qed.

Lemma sum_to_zero (f : nat -> Q) k :
  (forall i, (i < k)%nat -> f i == 0) -> sum_to f k == 0.
Proof.
  intro H. rewrite (sum_to_ext f (fun _ => 0)) by exact H.
  rewrite sum_to_const. ring.
Qed.

Lemma sum_to_swap (f : nat -> nat -> Q) k m :
  sum_to (fun i => sum_to (fun j => f i j) m) k
  == sum_to (fun j => sum_to (fun i => f i j) k) m.
Proof.
  induction k as [| k IH]; simpl.
  - symmetry. apply sum_to_zero. reflexivity.
  - rewrite IH, <- sum_to_plus. reflexivity.
Qed.

Lemma sum_to_shift (f : nat -> Q) k :
  sum_to f (S k) == f 0%nat + sum_to (fun i => f (S i)) k.
Proof.
  induction k as [| k IH].
  - simpl. ring.
  - change (sum_to f (S (S k))) with (sum_to f (S k) + f (S k)).
    rewrite IH. simpl. ring.
Qed.

Lemma sum_to_split (f : nat -> Q) p q :
  sum_to f (p + q) == sum_to f p + sum_to (fun i => f (p + i)%nat) q.
Proof.
  induction q as [| q IH]; simpl.
  - rewrite Nat.add_0_r. ring.
  - rewrite Nat.add_succ_r. simpl. rewrite IH. ring.
Qed.

Lemma sum_range_split (f : nat -> Q) a s b :
  (a <= s <= b)%nat ->
  sum_range f a b == sum_range f a s + sum_range f s b.
Proof.
  intro H. unfold sum_range.
  replace (b - a)%nat with ((s - a) + (b - s))%nat by lia.
  rewrite sum_to_split. apply Qplus_inj_l.
  apply sum_to_ext. intros i _. replace (a + (s - a + i))%nat with (s + i)%nat by lia.
  reflexivity.
Qed.

Lemma sum_range_empty (f : nat -> Q) a : sum_range f a a == 0.
Proof. unfold sum_range. rewrite Nat.sub_diag. reflexivity. Qed.

Lemma sum_range_ext (f g : nat -> Q) a b :
  (forall i, (a <= i < b)%nat -> f i == g i) -> sum_range f a b == sum_range g a b.
Proof. intro H. unfold sum_range. apply sum_to_ext. intros i Hi. apply H. lia. Qed.

Lemma sum_range_swap (f : nat -> nat -> Q) a b d :
  sum_range (fun i => sum_to (fun l => f i l) d) a b
  == sum_to (fun l => sum_range (fun i => f i l) a b) d.
Proof. unfold sum_range. apply sum_to_swap. Qed.

Lemma sum_range_const (c : Q) a b :
  sum_range (fun _ => c) a b == inject_Z (Z.of_nat (b - a)) * c.
Proof. unfold sum_range. apply sum_to_const. Qed.

Lemma sq_nonneg (x : Q) : 0 <= x * x.
Proof.
  destruct (Qlt_le_dec x 0) as [H | H].
  - setoid_replace (x * x) with ((- x) * (- x)) by ring.
    apply Qmult_le_0_compat; lra.
  - apply Qmult_le_0_compat; lra.
Qed.

(** Merging two blocks never lowers the centred sum of squares. *)
Lemma merge_ineq (S1 S2 L1 L2 : Q) :
  0 < L1 -> 0 < L2 ->
  (S1 + S2) * (S1 + S2) / (L1 + L2) <= S1 * S1 / L1 + S2 * S2 / L2.
Proof.
  intros H1 H2.
  assert (E : S1 * S1 / L1 + S2 * S2 / L2 - (S1 + S2) * (S1 + S2) / (L1 + L2)
              == (L2 * S1 - L1 * S2) * (L2 * S1 - L1 * S2) / (L1 * L2 * (L1 + L2))).
  { field. repeat split; intro; lra. }
  assert (0 <= (L2 * S1 - L1 * S2) * (L2 * S1 - L1 * S2) / (L1 * L2 * (L1 + L2))).
  { apply Qle_shift_div_l.
    - apply Qmult_lt_0_compat; [apply Qmult_lt_0_compat |]; lra.
    - rewrite Qmult_0_l. apply sq_nonneg. }
  lra.
Qed.

(** Sum of squared deviations from the mean. *)
Lemma sum_to_dev (f : nat -> Q) k :
  (0 < k)%nat ->
  sum_to (fun i => (f i - sum_to f k / inject_Z (Z.of_nat k))
                   * (f i - sum_to f k / inject_Z (Z.of_nat k))) k
  == sum_to (fun i => f i * f i) k
     - sum_to f k * sum_to f k / inject_Z (Z.of_nat k).
Proof.
  intro Hk.
  set (S := sum_to f k). set (L := inject_Z (Z.of_nat k)).
  assert (HL : ~ L == 0).
  { unfold L. intro H. unfold Qeq in H. simpl in H. lia. }
  transitivity (sum_to (fun i => f i * f i + ((-2 * (S / L)) * f i + (S / L) * (S / L))) k).
  { apply sum_to_ext. intros i _. ring. }
  rewrite !sum_to_plus, sum_to_scal_l, sum_to_const. fold S L.
  field. exact HL.
Qed.

(* ------------------------------------------------------------------ *)
(** ** The linear kernel *)

Lemma dot_sum (x z : vec) d :
  (length x = d \/ x = []) -> (length z = d \/ z = []) ->
  dot x z == sum_to (fun l => nth l x 0 * nth l z 0) d.
Proof.
  intros Hx Hz.
  destruct Hx as [Hx | ->].
  2:{ symmetry. apply sum_to_zero. intros [| l] _; simpl; ring. }
  destruct Hz as [Hz | ->].
  2:{ unfold dot. rewrite combine_nil. symmetry. apply sum_to_zero.
      intros [| l] _; simpl; ring. }
  revert z d Hx Hz. induction x as [| a x IH]; intros z d Hx Hz.
  - simpl in Hx. subst d. reflexivity.
  - destruct z as [| b z]; simpl in Hz; [subst d; discriminate |].
    destruct d as [| d]; [discriminate |].
    rewrite sum_to_shift.
    change (dot (a :: x) (b :: z)) with (fst (a, b) * snd (a, b) + dot x z).
    apply Qplus_comp; [reflexivity | apply IH; simpl in *; lia].
Qed.

Section LinearCost.

Variable y : signal.
Variable d : nat.
Hypothesis rows_d : Forall (fun r => length r = d) y.

Lemma row_shape t : length (nth t y []) = d \/ nth t y [] = [].
Proof.
  destruct (Nat.lt_ge_cases t (length y)) as [H | H].
  - left. rewrite Forall_forall in rows_d. apply rows_d. apply nth_In. exact H.
  - right. apply nth_overflow. exact H.
Qed.

Lemma gram_linear i j :
  gram linear y i j == sum_to (fun l => coord y i l * coord y j l) d.
Proof. unfold gram, linear, coord. apply dot_sum; apply row_shape. Qed.

(** With the linear kernel the kernel form of the cost is the sum over
    the coordinates of the centred sums of squares. *)
Lemma cost_kernel_ss a b :
  cost_kernel linear y a b == sum_to (coord_ss y a b) d.
Proof.
  unfold cost_kernel, coord_ss.
  setoid_rewrite gram_linear.
  rewrite (sum_range_swap (fun i l => coord y i l * coord y i l)).
  assert (E : sum_range (fun i => sum_range (fun j =>
                sum_to (fun l => coord y i l * coord y j l) d) a b) a b
              == sum_to (fun l => sum_range (fun t => coord y t l) a b
                                  * sum_range (fun t => coord y t l) a b) d).
  { transitivity (sum_range (fun i => sum_to (fun l =>
                    sum_range (fun j => coord y i l * coord y j l) a b) d) a b).
    { apply sum_range_ext. intros i _.
      apply (sum_range_swap (fun j l => coord y i l * coord y j l)). }
    rewrite (sum_range_swap (fun i l => sum_range (fun j => coord y i l * coord y j l) a b)).
    apply sum_to_ext. intros l _. unfold sum_range.
    rewrite <- sum_to_scal_r. apply sum_to_ext. intros i _.
    rewrite <- sum_to_scal_l. reflexivity. }
  rewrite E, sum_to_minus, <- sum_to_scal_l. apply Qplus_inj_l.
  apply Qopp_comp. apply sum_to_ext. intros l _. unfold Qdiv. ring.
Qed.

Lemma vsub_nth x z l :
  (l < length x)%nat -> (l < length z)%nat ->
  nth l (vsub x z) 0 = nth l x 0 - nth l z 0.
Proof.
  revert z l. induction x as [| a x IH]; intros z l Hx Hz; [simpl in Hx; lia |].
  destruct z as [| b z]; [simpl in Hz; lia |].
  destruct l as [| l]; [reflexivity |].
  simpl in Hx, Hz. apply (IH z l); lia.
Qed.

Lemma length_vsub x z : length (vsub x z) = Nat.min (length x) (length z).
Proof. unfold vsub. rewrite length_map, length_combine. reflexivity. Qed.

Lemma length_seg_mean a b : length (seg_mean y d a b) = d.
Proof. unfold seg_mean. rewrite length_map, length_seq. reflexivity. Qed.

Lemma seg_mean_nth a b l :
  (l < d)%nat ->
  nth l (seg_mean y d a b) 0
  = sum_range (fun t => coord y t l) a b / inject_Z (Z.of_nat (b - a)).
Proof.
  intro Hl. unfold seg_mean. rewrite nth_map_seq.
  destruct (Nat.ltb_spec l d); [reflexivity | lia].
Qed.

(** The cost of the notebook's form is, too, the sum over the coordinates
    of the centred sums of squares. *)
Lemma cost_mean_ss a b :
  (a < b)%nat -> (b <= length y)%nat ->
  cost_mean y d a b == sum_to (coord_ss y a b) d.
Proof.
  intros Hab Hb. unfold cost_mean.
  transitivity (sum_range (fun t => sum_to (fun l =>
      (coord y t l - sum_range (fun t' => coord y t' l) a b / inject_Z (Z.of_nat (b - a)))
    * (coord y t l - sum_range (fun t' => coord y t' l) a b / inject_Z (Z.of_nat (b - a))))
      d) a b).
  - apply sum_range_ext. intros t Ht.
    assert (Hrow : length (nth t y []) = d).
    { rewrite Forall_forall in rows_d. apply rows_d. apply nth_In. lia. }
    unfold sqnorm. rewrite (dot_sum _ _ d).
    2, 3: left; rewrite length_vsub, Hrow, length_seg_mean; lia.
    apply sum_to_ext. intros l Hl.
    rewrite vsub_nth by (rewrite ?Hrow, ?length_seg_mean; lia).
    rewrite seg_mean_nth by lia. reflexivity.
  - rewrite (sum_range_swap (fun t l =>
      (coord y t l - sum_range (fun t' => coord y t' l) a b / inject_Z (Z.of_nat (b - a)))
    * (coord y t l - sum_range (fun t' => coord y t' l) a b / inject_Z (Z.of_nat (b - a))))).
    apply sum_to_ext. intros l _. unfold coord_ss, sum_range.
    apply sum_to_dev. lia.
Qed.

End LinearCost.

(** Splitting a segment never increases the centred sum of squares. *)
Lemma coord_ss_split y a s b l :
  (a <= s <= b)%nat -> coord_ss y a s l + coord_ss y s b l <= coord_ss y a b l.
Proof.
  intro H.
  destruct (Nat.eq_dec s a) as [-> | Hsa].
  { unfold coord_ss at 1. rewrite !sum_range_empty, Nat.sub_diag.
    setoid_replace (0 - 0 * 0 / inject_Z (Z.of_nat 0)) with 0 by reflexivity.
    rewrite Qplus_0_l. apply Qle_refl. }
  destruct (Nat.eq_dec s b) as [-> | Hsb].
  { unfold coord_ss at 2. rewrite !sum_range_empty, Nat.sub_diag.
    setoid_replace (0 - 0 * 0 / inject_Z (Z.of_nat 0)) with 0 by reflexivity.
    rewrite Qplus_0_r. apply Qle_refl. }
  unfold coord_ss.
  rewrite (sum_range_split (fun t => coord y t l * coord y t l) a s b) by lia.
  rewrite (sum_range_split (fun t => coord y t l) a s b) by lia.
  replace (b - a)%nat with ((s - a) + (b - s))%nat by lia.
  rewrite Nat2Z.inj_add, inject_Z_plus.
  pose proof (merge_ineq (sum_range (fun t => coord y t l) a s)
                         (sum_range (fun t => coord y t l) s b)
                         (inject_Z (Z.of_nat (s - a))) (inject_Z (Z.of_nat (b - s))))
    as M.
  assert (P1 : 0 < inject_Z (Z.of_nat (s - a))) by (unfold Qlt; simpl; lia).
  assert (P2 : 0 < inject_Z (Z.of_nat (b - s))) by (unfold Qlt; simpl; lia).
  specialize (M P1 P2).
  revert M.
  generalize (sum_range (fun t => coord y t l * coord y t l) a s).
  generalize (sum_range (fun t => coord y t l * coord y t l) s b).
  generalize ((sum_range (fun t => coord y t l) a s + sum_range (fun t => coord y t l) s b)
     * (sum_range (fun t => coord y t l) a s + sum_range (fun t => coord y t l) s b)
     / (inject_Z (Z.of_nat (s - a)) + inject_Z (Z.of_nat (b - s)))).
  generalize (sum_range (fun t => coord y t l) a s * sum_range (fun t => coord y t l) a s
     / inject_Z (Z.of_nat (s - a))).
  generalize (sum_range (fun t => coord y t l) s b * sum_range (fun t => coord y t l) s b
     / inject_Z (Z.of_nat (b - s))).
  intros. lra.
Qed.

(** The linear cost never increases when a segment is split. *)
Lemma linear_cost_split y d a s b :
  Forall (fun r => length r = d) y ->
  (a <= s <= b)%nat ->
  cost_kernel linear y a s + cost_kernel linear y s b <= cost_kernel linear y a b.
Proof.
  intros Hd H. rewrite !(cost_kernel_ss y d Hd), <- sum_to_plus.
  apply sum_to_le. intros l _. apply coord_ss_split. exact H.
Qed.

(* ------------------------------------------------------------------ *)
(** ** A fitted engine *)

Lemma fit_ok K y kmax m fe :
  fit K y kmax m = Ok fe ->
  exists r rest, y = r :: rest /\
    Forall (fun r' => length r' = length r) y /\
    (S kmax * eff_min m <= length y)%nat /\
    fe = {| fe_n := length y; fe_kmax := kmax; fe_min_size := m;
            fe_cost := cost_kernel K y;
            fe_table := dp_table (cost_kernel K y) m (length y) kmax |}.
Proof.
  unfold fit. destruct y as [| r rest]; [discriminate |].
  destruct (forallb (fun r' => length r' =? length r)%nat (r :: rest)) eqn:Hall;
    [| discriminate].
  simpl negb. cbv iota.
  destruct (Nat.ltb_spec (n_samples (r :: rest)) (S kmax * eff_min m)); [discriminate |].
  intros [= <-]. exists r, rest. repeat split; auto.
  apply Forall_forall. intros r' Hr'. rewrite forallb_forall in Hall.
  apply Nat.eqb_eq. apply Hall. exact Hr'.
Qed.

(** Every query [k <= k_max] of a fitted engine finds a defined cell. *)
Lemma fitted_query K y kmax m fe k :
  fit K y kmax m = Ok fe -> (k <= kmax)%nat ->
  exists v b,
    nth (length y) (dp_row (cost_kernel K y) m (length y) k) None = Some (v, b) /\
    total_cost fe k = Ok v /\
    predict fe k = Ok (walk (fe_table fe) k (length y) ++ [length y]).
Proof.
  intros Hfit Hk. destruct (fit_ok _ _ _ _ _ Hfit) as (r & rest & Hy & Hd & Hn & ->).
  destruct (proj2 (D_defined (cost_kernel K y) m (length y) k (length y))) as [[v b] Hc].
  { split; [lia |]. apply Nat.le_trans with (S kmax * eff_min m)%nat; [| exact Hn].
    apply Nat.mul_le_mono_r. lia. }
  exists v, b. unfold total_cost, predict. simpl fe_kmax. simpl fe_n. simpl fe_table.
  destruct (Nat.ltb_spec kmax k); [lia |].
  rewrite dp_table_nth by exact Hk. rewrite Hc. auto.
Qed.

Lemma fitted_table K y kmax m fe j :
  fit K y kmax m = Ok fe -> (j <= kmax)%nat ->
  nth j (fe_table fe) [] = dp_row (fe_cost fe) m (fe_n fe) j.
Proof.
  intros Hfit Hj. destruct (fit_ok _ _ _ _ _ Hfit) as (r & rest & Hy & Hd & Hn & ->).
  apply dp_table_nth. exact Hj.
Qed.

Lemma fitted_fields K y kmax m fe :
  fit K y kmax m = Ok fe ->
  fe_n fe = length y /\ fe_kmax fe = kmax /\ fe_min_size fe = m /\
  fe_cost fe = cost_kernel K y.
Proof.
  intro Hfit. destruct (fit_ok _ _ _ _ _ Hfit) as (r & rest & Hy & Hd & Hn & ->).
  repeat split.
Qed.

(** The value of a query is the sum of the costs of the predicted segments. *)
Lemma fitted_sum_of_costs K y kmax m fe k :
  fit K y kmax m = Ok fe -> (k <= kmax)%nat ->
  exists v g, total_cost fe k = Ok v /\ get_sum_of_cost fe k = Ok g /\ g == v.
Proof.
  intros Hfit Hk.
  destruct (fitted_query _ _ _ _ _ _ Hfit Hk) as (v & b & Hc & Htc & Hp).
  destruct (fitted_fields _ _ _ _ _ Hfit) as (Hn & Hkm & Hm & Hcost).
  exists v, (sum_of_costs (fe_cost fe) (walk (fe_table fe) k (length y) ++ [length y])).
  split; [exact Htc |]. split; [unfold get_sum_of_cost; rewrite Hp; reflexivity |].
  assert (Htbl : forall j, (j <= kmax)%nat ->
            nth j (fe_table fe) [] = dp_row (cost_kernel K y) m (length y) j).
  { intros j Hj. rewrite (fitted_table _ _ _ _ _ _ Hfit Hj), Hn, Hcost. reflexivity. }
  rewrite Hcost.
  exact (walk_value (cost_kernel K y) m (length y) (fe_table fe) kmax Htbl
           k (length y) v b Hk Hc).
Qed.

(* ------------------------------------------------------------------ *)
(** ** Properties of the engine *)

(** C1 (counterexample): with minimal segment length 2, the signal
    [[0;0;0;10;10;10]] fitted with [k_max = 2] has [total_cost(1) = 0]
    but [total_cost(2) = 50]: one more breakpoint forces the segments
    [[0,2), [2,4), [4,6)], and [[2,4)] straddles the change. The same
    holds for [get_sum_of_cost]. *)
Lemma total_cost_increases_min_size_2 :
  match bind (fit linear steps_signal 2 2) (fun fe => total_cost fe 2),
        bind (fit linear steps_signal 2 2) (fun fe => total_cost fe 1),
        bind (fit linear steps_signal 2 2) (fun fe => get_sum_of_cost fe 2),
        bind (fit linear steps_signal 2 2) (fun fe => get_sum_of_cost fe 1) with
  | Ok c2, Ok c1, Ok g2, Ok g1 => c1 < c2 /\ c2 == 50 /\ c1 == 0 /\ g1 < g2
  | _, _, _, _ => False
  end.
Proof. vm_compute. repeat split; reflexivity. Qed.

(** C1 (amended): with the linear kernel and minimal segment length 1,
    for every [k < k_max], [total_cost(k+1) <= total_cost(k)], and
    likewise [get_sum_of_cost(k+1) <= get_sum_of_cost(k)]. *)
Theorem total_cost_nonincreasing y kmax m fe k :
  fit linear y kmax m = Ok fe -> (m <= 1)%nat -> (k < kmax)%nat ->
  exists a b, total_cost fe (S k) = Ok a /\ total_cost fe k = Ok b /\ a <= b /\
  exists ga gb, get_sum_of_cost fe (S k) = Ok ga /\ get_sum_of_cost fe k = Ok gb /\ ga <= gb.
Proof.
  intros Hfit Hm Hk.
  destruct (fit_ok _ _ _ _ _ Hfit) as (r & rest & Hy & Hd & Hn & _).
  assert (Hem : eff_min m = 1%nat) by (unfold eff_min; lia).
  rewrite Hem in Hn.
  destruct (fitted_query _ _ _ _ _ k Hfit ltac:(lia)) as (b & bb & Hcb & Htb & _).
  destruct (D_mono (cost_kernel linear y) m (length y)
              (fun a s b' Hs => linear_cost_split y (length r) a s b' Hd Hs)
              Hm k (length y) b bb Hcb ltac:(lia)) as (a & ba & Hca & Hab).
  destruct (fitted_query _ _ _ _ _ (S k) Hfit ltac:(lia)) as (a' & ba' & Hca' & Hta & _).
  rewrite Hca in Hca'. injection Hca' as <- <-.
  exists a, b. repeat split; auto.
  destruct (fitted_sum_of_costs _ _ _ _ _ (S k) Hfit ltac:(lia)) as (a2 & ga & Ha2 & Hga & Ea).
  destruct (fitted_sum_of_costs _ _ _ _ _ k Hfit ltac:(lia)) as (b2 & gb & Hb2 & Hgb & Eb).
  rewrite Hta in Ha2. injection Ha2 as <-. rewrite Htb in Hb2. injection Hb2 as <-.
  exists ga, gb. repeat split; auto. rewrite Ea, Eb. exact Hab.
Qed.

(** C2 (amended): for a fitted engine and [k <= k_max], [predict(k)]
    returns [k+1] strictly increasing indices: the [k] breakpoints, all
    strictly inside [(0, n)], followed by the end [n] of the sequence;
    every segment of [pairwise([0] + bkps)] has length at least
    [min_segment_length]. *)
Theorem predict_breakpoints K y kmax m fe k :
  fit K y kmax m = Ok fe -> (k <= kmax)%nat ->
  exists bkps, predict fe k = Ok bkps /\
    length bkps = S k /\
    last bkps 0%nat = length y /\
    Sorted lt bkps /\
    Forall (fun x => 0 < x /\ x < length y)%nat (removelast bkps) /\
    Forall (fun p => m <= snd p - fst p)%nat (pairwise (0%nat :: bkps)).
Proof.
  intros Hfit Hk.
  destruct (fitted_query _ _ _ _ _ _ Hfit Hk) as (v & b & Hc & _ & Hp).
  destruct (fitted_fields _ _ _ _ _ Hfit) as (Hn & Hkm & Hm & Hcost).
  assert (Htbl : forall j, (j <= kmax)%nat ->
            nth j (fe_table fe) [] = dp_row (cost_kernel K y) m (length y) j).
  { intros j Hj. rewrite (fitted_table _ _ _ _ _ _ Hfit Hj), Hn, Hcost. reflexivity. }
  destruct (walk_segments (cost_kernel K y) m (length y) (fe_table fe) kmax Htbl
              k (length y) (v, b) Hk Hc) as [Hlen Hgaps].
  pose proof (eff_min_pos m) as Hem.
  exists (walk (fe_table fe) k (length y) ++ [length y]). split; [exact Hp |].
  split; [rewrite length_app, Hlen; simpl; lia |].
  split; [apply last_last |].
  split.
  { apply (gaps_sorted (eff_min m)) in Hgaps; [| exact Hem].
    apply Sorted_inv in Hgaps. apply Hgaps. }
  split.
  { rewrite removelast_last. apply (gaps_bounds (eff_min m)) in Hgaps; [| exact Hem].
    apply Hgaps. }
  eapply Forall_impl; [| exact Hgaps]. intros [p q]. simpl.
  unfold eff_min. lia.
Qed.

(** C2 (counterexample): on [[0;0;0;10;10;10]] fitted with [k_max = 3],
    [predict(1)] is [[3; 6]]: two indices, not one, and the last one is
    [n = 6]. *)
Lemma predict_one_reports_n :
  match bind (fit linear steps_signal 3 1) (fun fe => predict fe 1) with
  | Ok bkps => bkps = [3%nat; 6%nat] /\ length bkps <> 1%nat /\ In 6%nat bkps
  | Err _ => False
  end.
Proof. vm_compute. split; [reflexivity |]. split; [discriminate | right; left; reflexivity]. Qed.

(** C3: after one [fit] with bound [k_max], [predict(k_max)] succeeds and
    leaves the engine unchanged; for every [k <= k_max], [predict(k)] and
    [total_cost(k)] succeed, leave the engine unchanged and so give the
    same answer on every later call; that answer equals the answer of an
    engine fitted for [k] alone, and it is read from the stored table: any
    engine holding the same table, length and bound gives it too. *)
Theorem queries_reuse_table K y kmax m fe k :
  fit K y kmax m = Ok fe -> (k <= kmax)%nat ->
  (exists bkps_max, engine_predict (Some fe) kmax = (Ok bkps_max, Some fe)) /\
  exists bkps v,
    engine_predict (Some fe) k = (Ok bkps, Some fe) /\
    engine_total_cost (Some fe) k = (Ok v, Some fe) /\
    engine_predict (snd (engine_predict (Some fe) k)) k = (Ok bkps, Some fe) /\
    engine_total_cost (snd (engine_total_cost (Some fe) k)) k = (Ok v, Some fe) /\
    (exists fe', fit K y k m = Ok fe' /\ predict fe' k = Ok bkps /\ total_cost fe' k = Ok v) /\
    (forall fe2, fe_table fe2 = fe_table fe -> fe_n fe2 = fe_n fe -> fe_kmax fe2 = fe_kmax fe ->
       predict fe2 k = Ok bkps /\ total_cost fe2 k = Ok v).
Proof.
  intros Hfit Hk.
  split.
  { destruct (fitted_query _ _ _ _ _ kmax Hfit ltac:(lia)) as (vm & bm & _ & _ & Hpm).
    eexists. cbn [engine_predict]. rewrite Hpm. reflexivity. }
  destruct (fitted_query _ _ _ _ _ k Hfit Hk) as (v & b & Hc & Htc & Hp).
  exists (walk (fe_table fe) k (length y) ++ [length y]), v.
  cbn [engine_predict engine_total_cost snd]. rewrite Hp, Htc.
  cbn [engine_predict engine_total_cost snd]. rewrite ?Hp, ?Htc.
  split; [reflexivity |]. split; [reflexivity |].
  split; [reflexivity |]. split; [reflexivity |].
  split.
  - destruct (fit_ok _ _ _ _ _ Hfit) as (r & rest & Hy & Hd & Hn & Hfe).
    assert (Hfit' : exists fe', fit K y k m = Ok fe').
    { unfold fit. rewrite Hy. rewrite Hy in Hd.
      assert (Hall : forallb (fun r' => length r' =? length r)%nat (r :: rest) = true).
      { apply forallb_forall. intros r' Hr'. apply Nat.eqb_eq.
        rewrite Forall_forall in Hd. apply Hd. exact Hr'. }
      rewrite Hall. simpl negb. cbv iota.
      destruct (Nat.ltb_spec (n_samples (r :: rest)) (S k * eff_min m)); [| eauto].
      exfalso. rewrite <- Hy in *. unfold n_samples in *.
      assert (S k * eff_min m <= S kmax * eff_min m)%nat by (apply Nat.mul_le_mono_r; lia).
      lia. }
    destruct Hfit' as [fe' Hfit']. exists fe'. split; [exact Hfit' |].
    rewrite <- Hp, <- Htc.
    destruct (fit_ok _ _ _ _ _ Hfit') as (r' & rest' & _ & _ & _ & Hfe').
    subst fe fe'. unfold predict, total_cost. cbn [fe_kmax fe_n fe_table].
    destruct (Nat.ltb_spec k k); [lia |]. destruct (Nat.ltb_spec kmax k); [lia |].
    rewrite !dp_table_nth by lia.
    rewrite (walk_ext (dp_table (cost_kernel K y) m (length y) k)
                      (dp_table (cost_kernel K y) m (length y) kmax)).
    + split; reflexivity.
    + intros j Hj. rewrite !dp_table_nth by lia. reflexivity.
  - intros fe2 Ht Hn Hkm. rewrite <- Hp, <- Htc.
    unfold predict, total_cost. rewrite Ht, Hn, Hkm. auto.
Qed.

(** C4: with the linear kernel, the cost the engine uses for a non-empty
    segment [[a, b)] is the kernel form
    [sum_i K(y_i,y_i) - 1/(b-a) sum_{i,j} K(y_i,y_j)], and it equals the
    notebook's sum of squared deviations from the segment mean
    [sum_t ||y_t - mean(y_{a..b})||^2]. *)
Theorem linear_cost_is_deviation y kmax m fe a b :
  fit linear y kmax m = Ok fe -> (a < b)%nat -> (b <= fe_n fe)%nat ->
  fe_cost fe a b = cost_kernel linear y a b /\
  cost_kernel linear y a b == cost_mean y (length (hd [] y)) a b.
Proof.
  intros Hfit Hab Hb.
  destruct (fit_ok _ _ _ _ _ Hfit) as (r & rest & Hy & Hd & Hn & Hfe).
  subst fe. simpl in Hb. split; [reflexivity |].
  rewrite Hy at 3. simpl hd.
  rewrite (cost_kernel_ss y (length r) Hd), (cost_mean_ss y (length r) Hd) by assumption.
  reflexivity.
Qed.

(** C5: after [fit], [predict(0)] reports no breakpoint: its list has no
    index strictly inside [(0, n)] and nothing before its last element, the
    end of the sequence (dropped by the notebook's [[:-1]]); [total_cost(0)]
    is the cost of the whole segment [[0, n)] computed directly by the cost
    model, and so is [get_sum_of_cost(0)]. *)
Theorem predict_zero K y kmax m fe :
  fit K y kmax m = Ok fe ->
  exists bkps, predict fe 0 = Ok bkps /\
    removelast bkps = [] /\
    filter (fun x => (0 <? x) && (x <? length y))%nat bkps = [] /\
    fe_cost fe = cost_kernel K y /\
    total_cost fe 0 = Ok (cost_kernel K y 0 (length y)) /\
    exists g, get_sum_of_cost fe 0 = Ok g /\ g == cost_kernel K y 0 (length y).
Proof.
  intro Hfit.
  destruct (fitted_query _ _ _ _ _ 0 Hfit ltac:(lia)) as (v & b & Hc & Ht & Hp).
  destruct (fitted_fields _ _ _ _ _ Hfit) as (_ & _ & _ & Hcost).
  simpl walk in Hp. rewrite app_nil_l in Hp.
  exists [length y]. split; [exact Hp |].
  split; [reflexivity |].
  split; [simpl; rewrite Nat.ltb_irrefl, andb_false_r; reflexivity |].
  split; [exact Hcost |].
  rewrite D_zero, Nat.leb_refl in Hc.
  destruct (seg_ok m 0 (length y)); [| discriminate].
  injection Hc as <- <-. split; [exact Ht |].
  unfold get_sum_of_cost. rewrite Hp. cbn [bind]. eexists. split; [reflexivity |].
  rewrite Hcost. unfold sum_of_costs. simpl. ring.
Qed.

(** C6: two runs of [fit] on the same input and configuration give the
    same engine, hence the same [predict(k)] and [total_cost(k)] for every
    [k]; and every cell of the table keeps, among the predecessors of
    minimal cost, the smallest index: the recorded predecessor [s] attains
    the cell's value [v], [v] is at most every candidate's, and strictly
    below every candidate with an index smaller than [s]. *)
Theorem fit_deterministic_smallest_index K y kmax m fe1 fe2 j t v s :
  fit K y kmax m = Ok fe1 -> fit K y kmax m = Ok fe2 -> (S j <= kmax)%nat ->
  nth t (nth (S j) (fe_table fe1) []) None = Some (v, s) ->
  fe1 = fe2 /\
  (forall k, predict fe1 k = predict fe2 k /\ total_cost fe1 k = total_cost fe2 k) /\
  (s < t)%nat /\
  cand (fe_cost fe1) m (nth j (fe_table fe1) []) t s = Some v /\
  (forall s' v', (s' < t)%nat ->
     cand (fe_cost fe1) m (nth j (fe_table fe1) []) t s' = Some v' -> v <= v') /\
  (forall s' v', (s' < s)%nat ->
     cand (fe_cost fe1) m (nth j (fe_table fe1) []) t s' = Some v' -> v < v').
Proof.
  intros H1 H2 Hj Hc.
  assert (E : fe1 = fe2) by congruence. subst fe2.
  split; [reflexivity |]. split; [intro; split; reflexivity |].
  rewrite (fitted_table _ _ _ _ _ _ H1 Hj) in Hc.
  rewrite (fitted_table _ _ _ _ _ j H1 ltac:(lia)).
  rewrite D_succ in Hc. destruct (t <=? fe_n fe1)%nat; [| discriminate].
  destruct (best_some _ _ _ _ _ _ Hc) as (Hst & Hcs & Hmin & Hstrict).
  split; [exact Hst |]. split; [exact Hcs |].
  split; [exact Hmin | exact Hstrict].
Qed.

(** C7: before [fit], [predict] and [total_cost] fail with [NotFitted];
    after [fit], a count [k > k_max] makes them fail with [OutOfRange];
    the engine state is the same after the failing call. *)
Theorem queries_out_of_range fe k :
  (fe_kmax fe < k)%nat ->
  engine_predict (Some fe) k = (Err OutOfRange, Some fe) /\
  engine_total_cost (Some fe) k = (Err OutOfRange, Some fe) /\
  engine_predict None k = (Err NotFitted, None) /\
  engine_total_cost None k = (Err NotFitted, None).
Proof.
  intro Hk. unfold engine_predict, engine_total_cost, predict, total_cost.
  destruct (Nat.ltb_spec (fe_kmax fe) k); [| lia]. repeat split.
Qed.

(* ------------------------------------------------------------------ *)
(** ** Properties of the notebook *)

(** C8: a segmentation returned by [get_bkps] is non-empty, ends with the
    number [n] of frames, and [pairwise([0] + bkps)] enumerates [k+1]
    segments. *)
Theorem get_bkps_ends_with_n sig k bkps :
  get_bkps sig k = Ok bkps ->
  bkps <> [] /\ last bkps 0%nat = length sig /\ length (pairwise (0%nat :: bkps)) = S k.
Proof.
  unfold get_bkps. destruct (fit linear sig k 1) as [fe |] eqn:Hfit; [| discriminate].
  cbn [bind]. intro Hp.
  destruct (fitted_query _ _ _ _ _ k Hfit ltac:(lia)) as (v & b & Hc & _ & Hp').
  rewrite Hp in Hp'. injection Hp' as ->.
  destruct (fitted_fields _ _ _ _ _ Hfit) as (Hn & Hkm & Hm & Hcost).
  assert (Htbl : forall j, (j <= k)%nat ->
            nth j (fe_table fe) [] = dp_row (cost_kernel linear sig) 1 (length sig) j).
  { intros j Hj. rewrite (fitted_table _ _ _ _ _ _ Hfit Hj), Hn, Hcost. reflexivity. }
  destruct (walk_segments (cost_kernel linear sig) 1 (length sig) (fe_table fe) k Htbl
              k (length sig) (v, b) ltac:(lia) Hc) as [Hlen _].
  split; [intro H; apply app_eq_nil in H; destruct H; discriminate |].
  split; [apply last_last |].
  rewrite length_pairwise, length_app, Hlen. simpl. lia.
Qed.

Lemma cpd_predict_err (n : nat) X e :
  fold_left (fun acc sig =>
               bind acc (fun out =>
                 bind (get_bkps sig n) (fun bkps => Ok (out ++ [bkps]))))
            X (Err e) = Err e.
Proof. induction X as [| x X IH]; [reflexivity | exact IH]. Qed.

Lemma cpd_predict_loop (n : nat) X acc out :
  fold_left (fun acc sig =>
               bind acc (fun out =>
                 bind (get_bkps sig n) (fun bkps => Ok (out ++ [bkps]))))
            X (Ok acc) = Ok out ->
  exists bs, out = acc ++ bs /\ Forall2 (fun x b => get_bkps x n = Ok b) X bs.
Proof.
  revert acc. induction X as [| x X IH]; intros acc H.
  - injection H as <-. exists []. rewrite app_nil_r. auto.
  - cbn [fold_left bind] in H.
    destruct (get_bkps x n) as [b |] eqn:Hb; cbn [bind] in H.
    + destruct (IH _ H) as (bs & -> & Hbs). exists (b :: bs).
      rewrite <- app_assoc. auto.
    + rewrite cpd_predict_err in H. discriminate.
Qed.

Lemma Forall2_nth_error {A B} (R : A -> B -> Prop) xs ys i x :
  Forall2 R xs ys -> nth_error xs i = Some x -> exists y, nth_error ys i = Some y /\ R x y.
Proof.
  intro H. revert i. induction H as [| x' y' xs ys Hr H IH]; intros i Hi.
  - destruct i; discriminate.
  - destruct i as [| i]; simpl in *; [injection Hi as <-; eauto | apply IH; exact Hi].
Qed.

Lemma snoc_loop_map {A B} (f : A -> B) X acc :
  fold_left (fun out x => out ++ [f x]) X acc = acc ++ map f X.
Proof.
  revert acc. induction X as [| x X IH]; intro acc; simpl.
  - rewrite app_nil_r. reflexivity.
  - rewrite IH, <- app_assoc. reflexivity.
Qed.

(** C9: [ChangePointDetector.predict(X)] returns one segmentation per
    signal, in order: the [i]-th is [get_bkps(X[i], n_bkps)];
    [TempogramTransformer.transform] returns one tempogram per signal,
    in order. *)
Theorem predict_one_per_signal get_tempogram det X out tt A :
  cpd_predict det X = Ok out ->
  length out = length X /\
  (forall i x, nth_error X i = Some x ->
     exists b, nth_error out i = Some b /\ get_bkps x (n_bkps det) = Ok b) /\
  length (tt_transform get_tempogram tt A) = length A /\
  (forall i a, nth_error A i = Some a ->
     nth_error (tt_transform get_tempogram tt A) i
     = Some (get_tempogram a (hop_length_tempo tt))).
Proof.
  intro H. unfold cpd_predict in H.
  destruct (cpd_predict_loop _ _ _ _ H) as (bs & -> & Hbs). simpl.
  unfold tt_transform. rewrite snoc_loop_map. simpl.
  split; [symmetry; eapply Forall2_length; exact Hbs |].
  split; [intros i x Hx; exact (Forall2_nth_error _ _ _ _ _ Hbs Hx) |].
  split; [apply length_map |].
  intros i a Ha. rewrite nth_error_map, Ha. reflexivity.
Qed.

(** C10: [fit] of both estimators returns the estimator itself, whatever
    its arguments, so [transform] and [predict] do not depend on it. *)
Theorem fit_is_identity {X Y : Type} (x : X) (yy : Y) get_tempogram tt det A Z :
  tt_fit tt x yy = tt /\ cpd_fit det x yy = det /\
  hop_length_tempo (tt_fit tt x yy) = hop_length_tempo tt /\
  n_bkps (cpd_fit det x yy) = n_bkps det /\
  tt_transform get_tempogram (tt_fit tt x yy) A = tt_transform get_tempogram tt A /\
  cpd_predict (cpd_fit det x yy) Z = cpd_predict det Z.
Proof. repeat split. Qed.

(* ------------------------------------------------------------------ *)
(** ** Optimality of the dynamic program *)

Lemma sum_of_costs_snoc cost (l : list nat) (s t : nat) :
  sum_of_costs cost (l ++ [s; t]) == sum_of_costs cost (l ++ [s]) + cost s t.
Proof.
  unfold sum_of_costs.
  change (0%nat :: l ++ [s; t]) with ((0%nat :: l) ++ [s; t]).
  rewrite pairwise_snoc2, map_app, qsum_app. simpl. ring.
Qed.

Section Optimal.

#[local] Set Warnings "-notation-for-abbreviation".

Variable cost : nat -> nat -> Q.
Variable min_size : nat.
Variable n : nat.

Notation D k t := (nth t (dp_row cost min_size n k) None).

(** Every split of [[0, t)] into [k+1] long enough segments costs at least
    the value of the cell [D[t][k]], which is then defined. *)
Lemma D_optimal k l t :
  (t <= n)%nat -> length l = k ->
  Forall (fun p => (fst p + eff_min min_size <= snd p)%nat) (pairwise (0%nat :: l ++ [t])) ->
  exists v b, D k t = Some (v, b) /\ v <= sum_of_costs cost (l ++ [t]).
Proof.
  revert l t. induction k as [| k IH]; intros l t Htn Hl Hgaps.
  - apply length_zero_iff_nil in Hl. subst l. simpl in Hgaps.
    inversion Hgaps as [| ? ? H0 _]; subst. simpl in H0.
    rewrite D_zero. destruct (Nat.leb_spec t n); [| lia].
    assert (seg_ok min_size 0 t = true) as -> by (apply seg_ok_iff; lia).
    exists (cost 0%nat t), 0%nat. split; [reflexivity |].
    unfold sum_of_costs. simpl. rewrite Qplus_0_r. apply Qle_refl.
  - destruct l as [| x l0] using rev_ind; [discriminate |]. clear IHl0.
    rewrite length_app in Hl. simpl in Hl.
    rewrite <- app_assoc in Hgaps. simpl (_ ++ [t]) in Hgaps.
    change (0%nat :: l0 ++ [x; t]) with ((0%nat :: l0) ++ [x; t]) in Hgaps.
    rewrite pairwise_snoc2 in Hgaps. apply Forall_app in Hgaps as [Hpre Hlast].
    inversion Hlast as [| ? ? Hxt _]; subst. simpl in Hxt.
    pose proof (eff_min_pos min_size) as Hem.
    destruct (IH l0 x ltac:(lia) ltac:(lia) Hpre) as (w & bw & Hw & Hwle).
    assert (Hcx : cand cost min_size (dp_row cost min_size n k) t x = Some (w + cost x t)).
    { unfold cand. rewrite Hw.
      assert (seg_ok min_size x t = true) as -> by (apply seg_ok_iff; lia).
      reflexivity. }
    rewrite D_succ. destruct (Nat.leb_spec t n); [| lia].
    destruct (best cost min_size (dp_row cost min_size n k) t) as [[v b] |] eqn:Hb.
    + exists v, b. split; [reflexivity |].
      destruct (best_some _ _ _ _ _ _ Hb) as (_ & _ & Hmin & _).
      pose proof (Hmin x _ ltac:(lia) Hcx) as Hv.
      rewrite <- app_assoc. simpl (_ ++ [t]). rewrite sum_of_costs_snoc.
      apply Qle_trans with (w + cost x t); [exact Hv |].
      apply Qplus_le_l. exact Hwle.
    + rewrite (best_none _ _ _ _ Hb x ltac:(lia)) in Hcx. discriminate.
Qed.

End Optimal.

(** The curve of [get_sum_of_cost] never increases with one more breakpoint
    (linear kernel, minimal segment length at most 1). *)
Lemma get_sum_of_cost_step y kmax m fe k :
  fit linear y kmax m = Ok fe -> (m <= 1)%nat -> (k < kmax)%nat ->
  exists ga gb, get_sum_of_cost fe (S k) = Ok ga /\ get_sum_of_cost fe k = Ok gb /\ ga <= gb.
Proof.
  intros Hfit Hm Hk.
  destruct (fit_ok _ _ _ _ _ Hfit) as (r & rest & Hy & Hd & Hn & _).
  assert (Hem : eff_min m = 1%nat) by (unfold eff_min; lia).
  rewrite Hem in Hn.
  destruct (fitted_query _ _ _ _ _ k Hfit ltac:(lia)) as (b & bb & Hcb & Htb & _).
  destruct (D_mono (cost_kernel linear y) m (length y)
              (fun a s b' Hs => linear_cost_split y (length r) a s b' Hd Hs)
              Hm k (length y) b bb Hcb ltac:(lia)) as (a & ba & Hca & Hab).
  destruct (fitted_query _ _ _ _ _ (S k) Hfit ltac:(lia)) as (a' & ba' & Hca' & Hta & _).
  rewrite Hca in Hca'. injection Hca' as <- <-.
  destruct (fitted_sum_of_costs _ _ _ _ _ (S k) Hfit ltac:(lia)) as (a2 & ga & Ha2 & Hga & Ea).
  destruct (fitted_sum_of_costs _ _ _ _ _ k Hfit ltac:(lia)) as (b2 & gb & Hb2 & Hgb & Eb).
  rewrite Hta in Ha2. injection Ha2 as <-. rewrite Htb in Hb2. injection Hb2 as <-.
  exists ga, gb. repeat split; auto. rewrite Ea, Eb. exact Hab.
Qed.

(* ------------------------------------------------------------------ *)
(** ** Further properties of the engine and the notebook *)

(** [get_sum_of_cost(algo, k)] is the least sum of segment costs over all
    ways to cut the sequence into [k+1] segments of length at least
    [min_segment_length] (the search is exact), and it is the cost of the
    segmentation [predict(k)] returns. *)
Theorem get_sum_of_cost_minimal K y kmax m fe k :
  fit K y kmax m = Ok fe -> (k <= kmax)%nat ->
  exists g bkps0,
    get_sum_of_cost fe k = Ok g /\ predict fe k = Ok bkps0 /\
    g = sum_of_costs (fe_cost fe) bkps0 /\
    forall bkps, length bkps = S k -> last bkps 0%nat = length y ->
      Forall (fun p => fst p < snd p /\ m <= snd p - fst p)%nat (pairwise (0%nat :: bkps)) ->
      g <= sum_of_costs (fe_cost fe) bkps.
Proof.
  intros Hfit Hk.
  destruct (fitted_query _ _ _ _ _ _ Hfit Hk) as (v & b & Hc & Htc & Hp).
  destruct (fitted_sum_of_costs _ _ _ _ _ _ Hfit Hk) as (v' & g & Htc' & Hg & Egv).
  rewrite Htc in Htc'. injection Htc' as <-.
  destruct (fitted_fields _ _ _ _ _ Hfit) as (Hn & Hkm & Hm & Hcost).
  exists g, (walk (fe_table fe) k (length y) ++ [length y]).
  split; [exact Hg |]. split; [exact Hp |].
  split; [unfold get_sum_of_cost in Hg; rewrite Hp in Hg; injection Hg as <-; reflexivity |].
  intros bkps Hlen Hlast Hgaps.
  destruct bkps as [| x l] using rev_ind; [discriminate |]. clear IHl.
  rewrite last_last in Hlast. subst x.
  rewrite length_app in Hlen. simpl in Hlen.
  destruct (D_optimal (cost_kernel K y) m (length y) k l (length y) ltac:(lia) ltac:(lia))
    as (v2 & b2 & Hc2 & Hle).
  { eapply Forall_impl; [| exact Hgaps]. intros [p q]. simpl. unfold eff_min. lia. }
  rewrite Hc in Hc2. injection Hc2 as <- <-.
  rewrite Egv, Hcost. exact Hle.
Qed.

(** The notebook's elbow curve over [array_of_n_bkps = 1..n_bkps_max], for
    an engine fitted up to [n_bkps_max] with the linear kernel and the
    default minimal segment length: one value per count, each a success,
    the [k]-th point being [get_sum_of_cost(algo, k)] (so the point drawn
    for [n_bkps = 5] lies on the curve), and the values never increase. *)
Theorem sum_of_cost_curve_nonincreasing y n_bkps_max algo :
  fit linear y n_bkps_max 1 = Ok algo ->
  length (sum_of_cost_curve algo n_bkps_max) = n_bkps_max /\
  (forall k, (1 <= k <= n_bkps_max)%nat ->
     nth_error (sum_of_cost_curve algo n_bkps_max) (k - 1) = Some (get_sum_of_cost algo k)) /\
  (forall i, (i < n_bkps_max)%nat ->
     exists g, nth_error (sum_of_cost_curve algo n_bkps_max) i = Some (Ok g)) /\
  (forall i a b, nth_error (sum_of_cost_curve algo n_bkps_max) i = Some (Ok b) ->
     nth_error (sum_of_cost_curve algo n_bkps_max) (S i) = Some (Ok a) -> a <= b).
Proof.
  intro Hfit.
  assert (Hnth : forall i, nth_error (sum_of_cost_curve algo n_bkps_max) i
            = if (i <? n_bkps_max)%nat then Some (get_sum_of_cost algo (S i)) else None).
  { intro i. unfold sum_of_cost_curve, array_of_n_bkps.
    rewrite nth_error_map, nth_error_seq. destruct (i <? n_bkps_max)%nat; reflexivity. }
  split; [unfold sum_of_cost_curve, array_of_n_bkps; rewrite length_map, length_seq; reflexivity |].
  split.
  { intros k Hk. rewrite Hnth. destruct (Nat.ltb_spec (k - 1) n_bkps_max); [| lia].
    do 2 f_equal. lia. }
  split.
  { intros i Hi. rewrite Hnth. destruct (Nat.ltb_spec i n_bkps_max); [| lia].
    destruct (fitted_sum_of_costs _ _ _ _ _ (S i) Hfit ltac:(lia)) as (v & g & _ & Hg & _).
    rewrite Hg. eauto. }
  intros i a b Hb Ha. rewrite Hnth in Ha, Hb.
  destruct (Nat.ltb_spec (S i) n_bkps_max); [| discriminate].
  destruct (Nat.ltb_spec i n_bkps_max); [| discriminate].
  injection Ha as Ha. injection Hb as Hb.
  destruct (get_sum_of_cost_step _ _ _ _ (S i) Hfit ltac:(lia) ltac:(lia)) as (ga & gb & Hga & Hgb & Hle).
  rewrite Ha in Hga. rewrite Hb in Hgb. injection Hga as ->. injection Hgb as ->. exact Hle.
Qed.

(** On a fitted engine, the notebook's recomputation [get_sum_of_cost(k)]
    agrees with the engine's [total_cost(k)] for every [k]: both succeed
    with the same value when [k <= k_max], both fail with [OutOfRange]
    otherwise. *)
Theorem get_sum_of_cost_agrees_total_cost K y kmax m fe k :
  fit K y kmax m = Ok fe ->
  ((k <= kmax)%nat /\ exists g v, get_sum_of_cost fe k = Ok g /\ total_cost fe k = Ok v /\ g == v) \/
  ((kmax < k)%nat /\ get_sum_of_cost fe k = Err OutOfRange /\ total_cost fe k = Err OutOfRange).
Proof.
  intro Hfit. destruct (Nat.le_gt_cases k kmax) as [Hk | Hk].
  - left. split; [exact Hk |].
    destruct (fitted_sum_of_costs _ _ _ _ _ _ Hfit Hk) as (v & g & Hv & Hg & E).
    exists g, v. auto.
  - right. split; [exact Hk |].
    destruct (fitted_fields _ _ _ _ _ Hfit) as (_ & Hkm & _).
    unfold get_sum_of_cost, predict, total_cost. rewrite Hkm.
    destruct (Nat.ltb_spec kmax k); [| lia]. split; reflexivity.
Qed.

Lemma forallb_rows (r : vec) (y : signal) :
  forallb (fun r' => length r' =? length r)%nat y = true <->
  Forall (fun r' => length r' = length r) y.
Proof.
  rewrite forallb_forall, Forall_forall.
  split; intros H x Hx; [apply Nat.eqb_eq | apply Nat.eqb_eq]; apply H; exact Hx.
Qed.

(** [get_bkps] fails exactly on the three errors of [fit]: an empty signal,
    frames of different lengths (compared with the first frame), and fewer
    frames than segments; in every other case it succeeds. *)
Theorem get_bkps_outcomes sig k :
  (get_bkps sig k = Err EmptySequence <-> sig = []) /\
  (get_bkps sig k = Err DimensionMismatch <->
     exists r rest, sig = r :: rest /\ ~ Forall (fun r' => length r' = length r) sig) /\
  (get_bkps sig k = Err InfeasibleKMax <->
     exists r rest, sig = r :: rest /\ Forall (fun r' => length r' = length r) sig /\
                    (length sig <= k)%nat) /\
  ((exists bkps, get_bkps sig k = Ok bkps) <->
     exists r rest, sig = r :: rest /\ Forall (fun r' => length r' = length r) sig /\
                    (k < length sig)%nat).
Proof.
  destruct sig as [| r rest].
  - unfold get_bkps. simpl. split; [split; auto |].
    split; [split; [discriminate | intros (? & ? & ? & _); discriminate] |].
    split; [split; [discriminate | intros (? & ? & ? & _); discriminate] |].
    split; [intros [? ?]; discriminate | intros (? & ? & ? & _); discriminate].
  - assert (Hsame : forall r0 rest0, r :: rest = r0 :: rest0 -> r0 = r)
      by (intros ? ? [= ? ?]; auto).
    unfold get_bkps.
    destruct (forallb (fun r' => length r' =? length r)%nat (r :: rest)) eqn:Hall.
    + apply forallb_rows in Hall.
      destruct (Nat.ltb_spec (n_samples (r :: rest)) (S k * eff_min 1)) as [Hlt | Hge].
      * assert (Hf : fit linear (r :: rest) k 1 = Err InfeasibleKMax).
        { unfold fit. rewrite (proj2 (forallb_rows r (r :: rest)) Hall). simpl negb.
          cbv iota. destruct (Nat.ltb_spec (n_samples (r :: rest)) (S k * eff_min 1));
            [reflexivity | lia]. }
        rewrite Hf. cbn [bind]. unfold n_samples, eff_min in Hlt. simpl Nat.max in Hlt.
        split; [split; discriminate |].
        split; [split; [discriminate | intros (r0 & rest0 & E & Hn); rewrite (Hsame _ _ E) in Hn; contradiction] |].
        split; [split; [intros _; exists r, rest; repeat split; auto; lia | reflexivity] |].
        split; [intros [? ?]; discriminate | intros (r0 & rest0 & E & _ & Hk); lia].
      * destruct (fit linear (r :: rest) k 1) as [fe |] eqn:Hf.
        -- destruct (fitted_query _ _ _ _ _ k Hf ltac:(lia)) as (v & b & _ & _ & Hp).
           cbn [bind]. rewrite Hp. unfold n_samples, eff_min in Hge. simpl Nat.max in Hge.
           split; [split; discriminate |].
           split; [split; [discriminate | intros (r0 & rest0 & E & Hn); rewrite (Hsame _ _ E) in Hn; contradiction] |].
           split; [split; [discriminate | intros (r0 & rest0 & E & _ & Hk); lia] |].
           split; [intros _; exists r, rest; repeat split; auto; lia | eauto].
        -- exfalso. unfold fit in Hf. rewrite (proj2 (forallb_rows r (r :: rest)) Hall) in Hf.
           simpl negb in Hf. cbv iota in Hf.
           destruct (Nat.ltb_spec (n_samples (r :: rest)) (S k * eff_min 1)); [lia | discriminate].
    + assert (Hf : fit linear (r :: rest) k 1 = Err DimensionMismatch)
        by (unfold fit; rewrite Hall; reflexivity).
      assert (Hn : ~ Forall (fun r' => length r' = length r) (r :: rest))
        by (intro H; apply forallb_rows in H; congruence).
      rewrite Hf. cbn [bind].
      split; [split; discriminate |].
      split; [split; [intros _; exists r, rest; auto | reflexivity] |].
      split; [split; [discriminate | intros (r0 & rest0 & E & Hall' & _); rewrite (Hsame _ _ E) in Hall'; contradiction] |].
      split; [intros [? ?]; discriminate |
              intros (r0 & rest0 & E & Hall' & _); rewrite (Hsame _ _ E) in Hall'; contradiction].
Qed.

Lemma cpd_predict_first_err (n : nat) X acc e :
  fold_left (fun acc sig =>
               bind acc (fun out =>
                 bind (get_bkps sig n) (fun bkps => Ok (out ++ [bkps]))))
            X (Ok acc) = Err e ->
  exists i x, nth_error X i = Some x /\ get_bkps x n = Err e /\
    forall j x', (j < i)%nat -> nth_error X j = Some x' -> exists b, get_bkps x' n = Ok b.
Proof.
  revert acc. induction X as [| x X IH]; intros acc H; [discriminate |].
  cbn [fold_left bind] in H.
  destruct (get_bkps x n) as [b | e'] eqn:Hb; cbn [bind] in H.
  - destruct (IH _ H) as (i & x0 & Hi & He & Hbefore).
    exists (S i), x0. split; [exact Hi |]. split; [exact He |].
    intros [| j] x' Hj Hx'; simpl in Hx'.
    + injection Hx' as <-. eauto.
    + apply (Hbefore j); [lia | exact Hx'].
  - rewrite cpd_predict_err in H. injection H as ->.
    exists 0%nat, x. split; [reflexivity |]. split; [exact Hb |]. intros j x' Hj. lia.
Qed.

(** When [ChangePointDetector.predict(X)] raises, it raises the error of
    the first signal of [X] on which [get_bkps] fails: all signals before
    it are segmented without error. *)
Theorem cpd_predict_first_error det X e :
  cpd_predict det X = Err e ->
  exists i x, nth_error X i = Some x /\ get_bkps x (n_bkps det) = Err e /\
    forall j x', (j < i)%nat -> nth_error X j = Some x' ->
      exists b, get_bkps x' (n_bkps det) = Ok b.
Proof. apply cpd_predict_first_err. Qed.

Lemma cpd_predict_all_ok (n : nat) X acc bs :
  Forall2 (fun x b => get_bkps x n = Ok b) X bs ->
  fold_left (fun acc sig =>
               bind acc (fun out =>
                 bind (get_bkps sig n) (fun bkps => Ok (out ++ [bkps]))))
            X (Ok acc) = Ok (acc ++ bs).
Proof.
  intro H. revert acc. induction H as [| x b X bs Hx H IH]; intro acc.
  - rewrite app_nil_r. reflexivity.
  - cbn [fold_left bind]. rewrite Hx. cbn [bind]. rewrite IH, <- app_assoc. reflexivity.
Qed.

Lemma Forall2_map_l {A B C} (f : A -> B) (R : B -> C -> Prop) xs ys :
  Forall2 R (map f xs) ys <-> Forall2 (fun x y => R (f x) y) xs ys.
Proof.
  revert ys. induction xs as [| x xs IH]; intros ys; split; intro H.
  - inversion H; constructor.
  - inversion H; constructor.
  - inversion H; subst. constructor; [assumption | apply IH; assumption].
  - inversion H; subst. constructor; [assumption | apply IH; assumption].
Qed.

(** [pipeline.predict(X)] succeeds exactly when every tempogram of [X] can
    be segmented, and then returns, in order, [get_bkps] of the tempogram of
    each signal. In particular [pipeline.predict([signal])] is a list of
    exactly one segmentation, so [bkps, = pipeline.predict([signal])]
    unpacks whenever no error is raised. *)
Theorem pipeline_predict_spec get_tempogram tt det X out :
  (pipeline_predict get_tempogram tt det X = Ok out <->
   Forall2 (fun a b => get_bkps (get_tempogram a (hop_length_tempo tt)) (n_bkps det) = Ok b)
           X out) /\
  (forall a, pipeline_predict get_tempogram tt det [a]
     = bind (get_bkps (get_tempogram a (hop_length_tempo tt)) (n_bkps det)) (fun b => Ok [b])).
Proof.
  unfold pipeline_predict, tt_transform. split.
  - rewrite snoc_loop_map. simpl.
    transitivity (Forall2 (fun x b => get_bkps x (n_bkps det) = Ok b)
                    (map (fun a => get_tempogram a (hop_length_tempo tt)) X) out);
      [| apply Forall2_map_l].
    split; intro H.
    + unfold cpd_predict in H. destruct (cpd_predict_loop _ _ _ _ H) as (bs & -> & Hbs).
      exact Hbs.
    + unfold cpd_predict. rewrite (cpd_predict_all_ok _ _ _ _ H). reflexivity.
  - intro a. unfold cpd_predict. cbn [fold_left app bind].
    destruct (get_bkps _ _); reflexivity.
Qed.

Lemma removelast_map {A B} (f : A -> B) (l : list A) :
  removelast (map f l) = map f (removelast l).
Proof.
  induction l as [| x l IH]; [reflexivity |].
  destruct l as [| y l]; [reflexivity |].
  transitivity (f x :: removelast (map f (y :: l))); [reflexivity |].
  rewrite IH. reflexivity.
Qed.

Lemma Sorted_app_l {A} (R : A -> A -> Prop) (l1 l2 : list A) :
  Sorted R (l1 ++ l2) -> Sorted R l1.
Proof.
  induction l1 as [| a l1 IH]; intro H; [constructor |].
  simpl in H. apply Sorted_inv in H as [Hs Hh]. constructor; [apply IH; exact Hs |].
  destruct l1 as [| b l1]; [constructor |]. inversion Hh; subst. constructor. assumption.
Qed.

(** The plot loop [for b in bkps_times[:-1]: ax.axvline(b, ...)] on the
    segmentation [get_bkps] returns for [n_bkps] breakpoints draws exactly
    [n_bkps] lines, at the times of strictly increasing frames lying
    strictly between [0] and the number of frames: the end of the
    sequence is never drawn. *)
Theorem vline_times_interior frames_to_time sig k bkps :
  get_bkps sig k = Ok bkps ->
  vline_times frames_to_time bkps = map frames_to_time (removelast bkps) /\
  length (vline_times frames_to_time bkps) = k /\
  Sorted lt (removelast bkps) /\
  Forall (fun x => 0 < x /\ x < length sig)%nat (removelast bkps).
Proof.
  unfold get_bkps. destruct (fit linear sig k 1) as [fe |] eqn:Hfit; [| discriminate].
  cbn [bind]. intro Hp.
  destruct (fitted_query _ _ _ _ _ k Hfit ltac:(lia)) as (v & b & Hc & _ & Hp').
  rewrite Hp in Hp'. injection Hp' as ->.
  destruct (fitted_fields _ _ _ _ _ Hfit) as (Hn & Hkm & Hm & Hcost).
  assert (Htbl : forall j, (j <= k)%nat ->
            nth j (fe_table fe) [] = dp_row (cost_kernel linear sig) 1 (length sig) j).
  { intros j Hj. rewrite (fitted_table _ _ _ _ _ _ Hfit Hj), Hn, Hcost. reflexivity. }
  destruct (walk_segments (cost_kernel linear sig) 1 (length sig) (fe_table fe) k Htbl
              k (length sig) (v, b) ltac:(lia) Hc) as [Hlen Hgaps].
  pose proof (eff_min_pos 1) as Hem.
  unfold vline_times. rewrite removelast_map, removelast_last.
  split; [reflexivity |].
  split; [rewrite length_map; exact Hlen |].
  split.
  - apply (gaps_sorted (eff_min 1)) in Hgaps; [| exact Hem].
    apply Sorted_inv in Hgaps as [Hgaps _]. apply Sorted_app_l in Hgaps. exact Hgaps.
  - apply (gaps_bounds (eff_min 1)) in Hgaps; [| exact Hem]. apply Hgaps.
Qed.

Lemma firstn_add {A} (p q : nat) (l : list A) :
  firstn (p + q) l = firstn p l ++ firstn q (skipn p l).
Proof.
  revert l. induction p as [| p IH]; intro l; [reflexivity |].
  destruct l as [| x l]; simpl.
  - destruct q; reflexivity.
  - rewrite IH. reflexivity.
Qed.

Lemma last_cons_default (a b : nat) (l : list nat) : last (b :: l) a = last l b.
Proof.
  revert a b. induction l as [| c l IH]; intros a b; [reflexivity |].
  change (last (b :: c :: l) a) with (last (c :: l) a). rewrite IH.
  symmetry. apply IH.
Qed.

Lemma last_ge (a : nat) (l : list nat) :
  Sorted le (a :: l) -> (a <= last l a)%nat.
Proof.
  revert a. induction l as [| b l IH]; intros a H; [simpl; lia |].
  apply Sorted_inv in H as [Hs Hh]. inversion Hh; subst.
  rewrite last_cons_default. specialize (IH b Hs). lia.
Qed.

Lemma concat_slices {A} (sig : list A) (a : nat) (l : list nat) :
  Sorted le (a :: l) ->
  concat (map (fun p => slice sig (fst p) (snd p)) (pairwise (a :: l)))
  = firstn (last l a - a) (skipn a sig).
Proof.
  revert a. induction l as [| b l IH]; intros a H.
  - simpl. rewrite Nat.sub_diag. reflexivity.
  - pose proof H as H'. apply Sorted_inv in H' as [Hs Hh]. inversion Hh; subst.
    pose proof (last_ge b l Hs) as Hge.
    change (pairwise (a :: b :: l)) with ((a, b) :: pairwise (b :: l)).
    cbn [map concat]. rewrite IH by exact Hs. unfold slice. simpl fst. simpl snd.
    rewrite last_cons_default.
    replace (last l b - a)%nat with ((b - a) + (last l b - b))%nat by lia.
    rewrite firstn_add, skipn_skipn. do 2 f_equal. f_equal. lia.
Qed.

(** The listening loop over [pairwise([0] + bkps_time_indexes)], with
    [segment = signal[start:end]], plays one segment per index, and for
    non-decreasing indices the segments, played one after the other, are
    exactly the start of the signal up to the last index: no sample is
    skipped or played twice, and their total length is the minimum of the
    last index and the signal's length. *)
Theorem listen_segments_tile (sig : audio) (idx : list nat) :
  Sorted le idx ->
  length (listen_segments sig idx) = length idx /\
  concat (listen_segments sig idx) = firstn (last idx 0%nat) sig /\
  length (concat (listen_segments sig idx)) = Nat.min (last idx 0%nat) (length sig).
Proof.
  intro Hs.
  assert (Hc : concat (listen_segments sig idx) = firstn (last idx 0%nat) sig).
  { unfold listen_segments. rewrite concat_slices.
    - rewrite Nat.sub_0_r. reflexivity.
    - destruct idx as [| b l]; [repeat constructor |].
      constructor; [exact Hs | constructor; lia]. }
  split; [unfold listen_segments; rewrite length_map, length_pairwise; reflexivity |].
  split; [exact Hc |]. rewrite Hc, length_firstn. reflexivity.
Qed.

(* ------------------------------------------------------------------ *)
(** ** The theorems at concrete inputs *)

Example flat_predict_1 :
  bind (fit linear flat_signal 1 1) (fun fe => predict fe 1) = Ok [1%nat; 4%nat].
Proof. vm_compute. reflexivity. Qed.

Lemma total_cost_nonincreasing_witness :
  exists fe, fit linear steps_signal 3 1 = Ok fe /\ (1 <= 1)%nat /\ (1 < 3)%nat /\
  exists a b, total_cost fe 2 = Ok a /\ total_cost fe 1 = Ok b /\ a <= b /\
  exists ga gb, get_sum_of_cost fe 2 = Ok ga /\ get_sum_of_cost fe 1 = Ok gb /\ ga <= gb.
Proof.
  eexists. split; [reflexivity |]. split; [lia |]. split; [lia |].
  apply (total_cost_nonincreasing steps_signal 3 1 _ 1); [reflexivity | lia | lia].
Defined.

Lemma predict_breakpoints_witness :
  exists fe, fit linear steps_signal 3 1 = Ok fe /\ (2 <= 3)%nat /\
  exists bkps, predict fe 2 = Ok bkps /\
    length bkps = 3%nat /\
    last bkps 0%nat = length steps_signal /\
    Sorted lt bkps /\
    Forall (fun x => 0 < x /\ x < length steps_signal)%nat (removelast bkps) /\
    Forall (fun p => 1 <= snd p - fst p)%nat (pairwise (0%nat :: bkps)).
Proof.
  eexists. split; [reflexivity |]. split; [lia |].
  apply (predict_breakpoints linear steps_signal 3 1 _ 2); [reflexivity | lia].
Defined.

Lemma queries_reuse_table_witness :
  exists fe, fit linear steps_signal 3 1 = Ok fe /\ (1 <= 3)%nat /\
  (exists bkps_max, engine_predict (Some fe) 3 = (Ok bkps_max, Some fe)) /\
  exists bkps v,
    engine_predict (Some fe) 1 = (Ok bkps, Some fe) /\
    engine_total_cost (Some fe) 1 = (Ok v, Some fe) /\
    engine_predict (snd (engine_predict (Some fe) 1)) 1 = (Ok bkps, Some fe) /\
    engine_total_cost (snd (engine_total_cost (Some fe) 1)) 1 = (Ok v, Some fe) /\
    (exists fe', fit linear steps_signal 1 1 = Ok fe' /\ predict fe' 1 = Ok bkps /\
       total_cost fe' 1 = Ok v) /\
    (forall fe2, fe_table fe2 = fe_table fe -> fe_n fe2 = fe_n fe -> fe_kmax fe2 = fe_kmax fe ->
       predict fe2 1 = Ok bkps /\ total_cost fe2 1 = Ok v).
Proof.
  eexists. split; [reflexivity |]. split; [lia |].
  apply (queries_reuse_table linear steps_signal 3 1 _ 1); [reflexivity | lia].
Defined.

Lemma linear_cost_is_deviation_witness :
  exists fe, fit linear steps_signal 3 1 = Ok fe /\ (0 < 6)%nat /\ (6 <= fe_n fe)%nat /\
  fe_cost fe 0 6 = cost_kernel linear steps_signal 0 6 /\
  cost_kernel linear steps_signal 0 6 == cost_mean steps_signal (length (hd [] steps_signal)) 0 6.
Proof.
  eexists. split; [reflexivity |]. split; [lia |]. split; [simpl; lia |].
  apply (linear_cost_is_deviation steps_signal 3 1); [reflexivity | lia | simpl; lia].
Defined.

Lemma predict_zero_witness :
  exists fe, fit linear steps_signal 3 1 = Ok fe /\
  exists bkps, predict fe 0 = Ok bkps /\
    removelast bkps = [] /\
    filter (fun x => (0 <? x) && (x <? length steps_signal))%nat bkps = [] /\
    fe_cost fe = cost_kernel linear steps_signal /\
    total_cost fe 0 = Ok (cost_kernel linear steps_signal 0 (length steps_signal)) /\
    exists g, get_sum_of_cost fe 0 = Ok g /\
      g == cost_kernel linear steps_signal 0 (length steps_signal).
Proof.
  eexists. split; [reflexivity |].
  apply (predict_zero linear steps_signal 3 1). reflexivity.
Defined.

Lemma fit_deterministic_smallest_index_witness :
  exists fe, fit linear flat_signal 1 1 = Ok fe /\ (1 <= 1)%nat /\
  nth 4 (nth 1 (fe_table fe) []) None = Some (0 # 3, 1%nat) /\
  fe = fe /\
  (forall k, predict fe k = predict fe k /\ total_cost fe k = total_cost fe k) /\
  (1 < 4)%nat /\
  cand (fe_cost fe) 1 (nth 0 (fe_table fe) []) 4 1 = Some (0 # 3) /\
  (forall s' v', (s' < 4)%nat ->
     cand (fe_cost fe) 1 (nth 0 (fe_table fe) []) 4 s' = Some v' -> 0 # 3 <= v') /\
  (forall s' v', (s' < 1)%nat ->
     cand (fe_cost fe) 1 (nth 0 (fe_table fe) []) 4 s' = Some v' -> 0 # 3 < v').
Proof.
  eexists. split; [reflexivity |]. split; [lia |]. split; [vm_compute; reflexivity |].
  apply (fit_deterministic_smallest_index linear flat_signal 1 1 _ _ 0 4);
    [reflexivity | reflexivity | lia | vm_compute; reflexivity].
Defined.

Lemma queries_out_of_range_witness :
  exists fe, fit linear steps_signal 3 1 = Ok fe /\ (fe_kmax fe < 5)%nat /\
  engine_predict (Some fe) 5 = (Err OutOfRange, Some fe) /\
  engine_total_cost (Some fe) 5 = (Err OutOfRange, Some fe) /\
  engine_predict None 5 = (Err NotFitted, None) /\
  engine_total_cost None 5 = (Err NotFitted, None).
Proof.
  eexists. split; [reflexivity |]. split; [simpl; lia |].
  apply queries_out_of_range. simpl. lia.
Defined.

Lemma get_bkps_ends_with_n_witness :
  get_bkps steps_signal 1 = Ok [3%nat; 6%nat] /\
  [3%nat; 6%nat] <> [] /\ last [3%nat; 6%nat] 0%nat = length steps_signal /\
  length (pairwise [0%nat; 3%nat; 6%nat]) = 2%nat.
Proof.
  split; [vm_compute; reflexivity |].
  apply get_bkps_ends_with_n. vm_compute. reflexivity.
Defined.

Lemma predict_one_per_signal_witness :
  cpd_predict {| n_bkps := 1 |} [steps_signal; flat_signal]
    = Ok [[3%nat; 6%nat]; [1%nat; 4%nat]] /\
  length [[3%nat; 6%nat]; [1%nat; 4%nat]] = length [steps_signal; flat_signal] /\
  (forall i x, nth_error [steps_signal; flat_signal] i = Some x ->
     exists b, nth_error [[3%nat; 6%nat]; [1%nat; 4%nat]] i = Some b /\ get_bkps x 1 = Ok b) /\
  length (tt_transform (fun a _ => [a]) {| hop_length_tempo := 256 |} [[0]; [1]; [2]])
    = length [[0]; [1]; [2]] /\
  (forall i a, nth_error [[0]; [1]; [2]] i = Some a ->
     nth_error (tt_transform (fun a _ => [a]) {| hop_length_tempo := 256 |} [[0]; [1]; [2]]) i
     = Some ((fun (a : audio) (_ : nat) => ([a] : signal)) a 256%nat)).
Proof.
  split; [vm_compute; reflexivity |].
  apply (predict_one_per_signal (fun a _ => [a]) {| n_bkps := 1 |} [steps_signal; flat_signal]).
  vm_compute. reflexivity.
Defined.

Lemma get_sum_of_cost_minimal_witness :
  exists fe, fit linear steps_signal 3 1 = Ok fe /\ (1 <= 3)%nat /\
  exists g bkps0,
    get_sum_of_cost fe 1 = Ok g /\ predict fe 1 = Ok bkps0 /\
    g = sum_of_costs (fe_cost fe) bkps0 /\
    forall bkps, length bkps = 2%nat -> last bkps 0%nat = length steps_signal ->
      Forall (fun p => fst p < snd p /\ 1 <= snd p - fst p)%nat (pairwise (0%nat :: bkps)) ->
      g <= sum_of_costs (fe_cost fe) bkps.
Proof.
  eexists. split; [reflexivity |]. split; [lia |].
  apply (get_sum_of_cost_minimal linear steps_signal 3 1 _ 1); [reflexivity | lia].
Defined.

Lemma sum_of_cost_curve_nonincreasing_witness :
  exists algo, fit linear steps_signal 3 1 = Ok algo /\
  length (sum_of_cost_curve algo 3) = 3%nat /\
  (forall k, (1 <= k <= 3)%nat ->
     nth_error (sum_of_cost_curve algo 3) (k - 1) = Some (get_sum_of_cost algo k)) /\
  (forall i, (i < 3)%nat -> exists g, nth_error (sum_of_cost_curve algo 3) i = Some (Ok g)) /\
  (forall i a b, nth_error (sum_of_cost_curve algo 3) i = Some (Ok b) ->
     nth_error (sum_of_cost_curve algo 3) (S i) = Some (Ok a) -> a <= b).
Proof.
  eexists. split; [reflexivity |].
  apply (sum_of_cost_curve_nonincreasing steps_signal 3 _). reflexivity.
Defined.

Lemma get_sum_of_cost_agrees_total_cost_witness :
  exists fe, fit linear steps_signal 3 1 = Ok fe /\
  (((2 <= 3)%nat /\ exists g v, get_sum_of_cost fe 2 = Ok g /\ total_cost fe 2 = Ok v /\ g == v) \/
   ((3 < 2)%nat /\ get_sum_of_cost fe 2 = Err OutOfRange /\ total_cost fe 2 = Err OutOfRange)).
Proof.
  eexists. split; [reflexivity |].
  apply (get_sum_of_cost_agrees_total_cost linear steps_signal 3 1 _ 2). reflexivity.
Defined.

Lemma cpd_predict_first_error_witness :
  cpd_predict {| n_bkps := 1 |} [steps_signal; []] = Err EmptySequence /\
  exists i x, nth_error [steps_signal; []] i = Some x /\ get_bkps x 1 = Err EmptySequence /\
    forall j x', (j < i)%nat -> nth_error [steps_signal; []] j = Some x' ->
      exists b, get_bkps x' 1 = Ok b.
Proof.
  split; [vm_compute; reflexivity |].
  apply (cpd_predict_first_error {| n_bkps := 1 |} [steps_signal; []] EmptySequence).
  vm_compute. reflexivity.
Defined.

Lemma vline_times_interior_witness :
  get_bkps [[0]; [0]; [5]; [5]; [9]; [9]] 2 = Ok [2%nat; 4%nat; 6%nat] /\
  vline_times (fun f => inject_Z (Z.of_nat f)) [2%nat; 4%nat; 6%nat]
    = map (fun f => inject_Z (Z.of_nat f)) (removelast [2%nat; 4%nat; 6%nat]) /\
  length (vline_times (fun f => inject_Z (Z.of_nat f)) [2%nat; 4%nat; 6%nat]) = 2%nat /\
  Sorted lt (removelast [2%nat; 4%nat; 6%nat]) /\
  Forall (fun x => 0 < x /\ x < length [[0]; [0]; [5]; [5]; [9]; [9]])%nat
         (removelast [2%nat; 4%nat; 6%nat]).
Proof.
  split; [vm_compute; reflexivity |].
  apply (vline_times_interior (fun f => inject_Z (Z.of_nat f))
           [[0]; [0]; [5]; [5]; [9]; [9]] 2 [2%nat; 4%nat; 6%nat]).
  vm_compute. reflexivity.
Defined.

Lemma listen_segments_tile_witness :
  Sorted le [2%nat; 4%nat; 4%nat] /\
  length (listen_segments [1; 2; 3; 4; 5] [2%nat; 4%nat; 4%nat]) = 3%nat /\
  concat (listen_segments [1; 2; 3; 4; 5] [2%nat; 4%nat; 4%nat]) = firstn 4 [1; 2; 3; 4; 5] /\
  length (concat (listen_segments [1; 2; 3; 4; 5] [2%nat; 4%nat; 4%nat]))
    = Nat.min 4 (length [1; 2; 3; 4; 5]).
Proof.
  assert (Hs : Sorted le [2%nat; 4%nat; 4%nat]) by (repeat constructor; simpl; lia).
  split; [exact Hs |].
  apply (listen_segments_tile [1; 2; 3; 4; 5] [2%nat; 4%nat; 4%nat]). exact Hs.
Defined.
